(** * HHVM JIT: the IR-generation state ([IRGS]) and its snapshot renderer

    A shallow embedding of [hphp/runtime/vm/jit/irgen-state.cpp]:

    - [Construct]: the constructor [IRGS::IRGS] and [initial_marker];
    - [Render]: the diagnostic printer [show(const IRGS&)], with its two
      lambdas [elem] and [checkFpi], the stack walk and the locals walk.

    Integers of the source ([int32_t], [int], [Offset]) are embedded in [Z];
    the arithmetic done on them here (one subtraction, increments and
    decrements bounded by the stack depth) stays inside the 32-bit range
    for every frame the VM can build, so no wrap-around is written out.
    [assertx] is embedded as a halting check: a failed assertion stops the
    computation and the outcome records which assertion fired, together
    with the state of the local variables at that point. *)

From Stdlib Require Import ZArith List String Ascii Bool Lia DecimalString.
Import ListNotations.

Open Scope Z_scope.

(** ** The type lattice of the JIT ([jit::Type])

    [type.h] is not part of the embedded sources; [show] uses the type
    only through the operations below, which form the interface. *)

Class TypeLattice : Type := {
  Ty : Type;
  (** [operator==] *)
  ty_eqb : Ty -> Ty -> bool;
  ty_eqb_spec : forall a b : Ty, reflect (a = b) (ty_eqb a b);
  (** [operator<=]: subtype-or-equal *)
  subtypeOf : Ty -> Ty -> bool;
  TStkElem : Ty;
  TBoxedCell : Ty;
  TBottom : Ty;
  (** [Type::toString], also what [folly::sformat] prints for a [Type] *)
  ty_toString : Ty -> string
}.

(** Modelled from the spec: [Type::operator<] lives in [type-inl.h], which
    is absent; the spec reads it as "strictly narrower than", that is a
    subtype that is not equal. *)
Definition strictSubtypeOf `{TypeLattice} (a b : Ty) : bool :=
  negb (ty_eqb a b) && subtypeOf a b.

(** ** Strings *)

Definition newline : ascii := ascii_of_nat 10.

(** [std::string::back] (undefined on the empty string in the source; [None] here). *)
Fixpoint string_back (s : string) : option ascii :=
  match s with
  | EmptyString => None
  | String c EmptyString => Some c
  | String _ r => string_back r
  end.

(** [s.erase(s.size() - 1)]: drop the last character. *)
Fixpoint string_pop_back (s : string) : string :=
  match s with
  | EmptyString => EmptyString
  | String _ EmptyString => EmptyString
  | String c r => String c (string_pop_back r)
  end.

(** [s.back() == '\n'] *)
Definition endsWithNewline (s : string) : bool :=
  match string_back s with
  | Some c => Ascii.eqb c newline
  | None => false
  end.

(** Decimal rendering of an integer, as [folly::format] prints a [{}] integer argument. *)
Definition dec (z : Z) : string := NilZero.string_of_int (Z.to_int z).

(** ** Construction of the translation state *)

Module Construct.

(** [SrcKey]: function, bytecode offset, resumed flag. *)
Record SrcKey : Type := {
  sk_funcId : nat;
  sk_offset : Z;
  sk_resumed : bool
}.

(** An [SSATmp] is identified by the number of its defining instruction. *)
Record SSATmp : Type := { tmp_id : nat }.

Record BCMarker : Type := {
  m_sk : SrcKey;
  m_spOff : Z;
  m_profTransID : Z;
  m_fp : option SSATmp
}.

Section WithFlags.

(** [TransFlags] is carried around and never inspected here. *)
Variable TransFlags : Type.

(** [TransContext], with the result of its accessor [srcKey()] as a field. *)
Record TransContext : Type := {
  transID : Z;
  initSpOffset : Z;
  flags : TransFlags;
  srcKey : SrcKey
}.

(** The two opcodes the constructor emits. *)
Inductive Opcode : Type := DefFP | DefSP.

Inductive ExtraData : Type :=
| FPInvOffsetData (offset : Z).

Record IRInstruction : Type := {
  i_op : Opcode;
  i_extra : option ExtraData;
  i_srcs : list SSATmp;
  i_marker : BCMarker;
  i_dst : SSATmp
}.

Record IRUnit : Type := { context : TransContext }.

(** The part of the [IRBuilder] the constructor touches: its current marker
    and the instructions emitted through it, oldest first. *)
Record IRBuilder : Type := {
  b_curMarker : BCMarker;
  b_insts : list IRInstruction
}.

Record IRGS : Type := {
  irgs_context : TransContext;
  irgs_transFlags : TransFlags;
  irgs_unit : IRUnit;
  irb : IRBuilder;
  bcStateStack : list SrcKey
}.

(** [initial_marker] *)
Definition initial_marker (ctx : TransContext) : BCMarker :=
  {| m_sk := srcKey ctx;
     m_spOff := initSpOffset ctx;
     m_profTransID := transID ctx;
     m_fp := None |}.

(** Modelled from the spec: the constructor [IRBuilder::IRBuilder] is absent
    ([ir-builder.cpp]); "initialize the Symbolic Builder with that marker as
    its current position", with nothing emitted yet. *)
Definition IRBuilder_new (_ : IRUnit) (initMarker : BCMarker) : IRBuilder :=
  {| b_curMarker := initMarker; b_insts := [] |}.

Definition with_irb (env : IRGS) (b : IRBuilder) : IRGS :=
  {| irgs_context := irgs_context env;
     irgs_transFlags := irgs_transFlags env;
     irgs_unit := irgs_unit env;
     irb := b;
     bcStateStack := bcStateStack env |}.

(** Modelled from the spec: [irgen::updateMarker] is absent
    ([irgen-internal.h]); "synchronize the position marker to this initial
    state": the builder's marker is set to the one derived from the active
    cursor (the last entry of the cursor stack), keeping the stack-pointer
    offset and the translation id of the context. *)
Definition updateMarker (env : IRGS) : IRGS :=
  let cur := b_curMarker (irb env) in
  let sk := last (bcStateStack env) (m_sk cur) in
  with_irb env
    {| b_curMarker :=
         {| m_sk := sk;
            m_spOff := m_spOff cur;
            m_profTransID := transID (irgs_context env);
            m_fp := None |};
       b_insts := b_insts (irb env) |}.

(** Modelled from the spec: [irgen::gen] is absent ([irgen-internal.h]);
    "emit a value": an instruction with the given opcode, extra data and
    inputs is appended under the current marker, and its destination is
    returned. *)
Definition gen (env : IRGS) (op : Opcode) (extra : option ExtraData)
    (srcs : list SSATmp) : IRGS * SSATmp :=
  let b := irb env in
  let dst := {| tmp_id := List.length (b_insts b) |} in
  let inst := {| i_op := op; i_extra := extra; i_srcs := srcs;
                 i_marker := b_curMarker b; i_dst := dst |} in
  (with_irb env {| b_curMarker := b_curMarker b;
                   b_insts := b_insts b ++ [inst] |},
   dst).

(** [IRGS::IRGS], the member initialisers. *)
Definition IRGS_init (unit : IRUnit) : IRGS :=
  let ctx := context unit in
  {| irgs_context := ctx;
     irgs_transFlags := flags ctx;
     irgs_unit := unit;
     irb := IRBuilder_new unit (initial_marker ctx);
     bcStateStack := [srcKey ctx] |}.

(** [IRGS::IRGS], the initialisers followed by the constructor body. *)
Definition IRGS_new (unit : IRUnit) : IRGS :=
  let env0 := IRGS_init unit in
  let env1 := updateMarker env0 in
  let '(env2, frame) := gen env1 DefFP None [] in
  let '(env3, _) :=
    gen env2 DefSP
        (Some (FPInvOffsetData (initSpOffset (irgs_context env2)))) [frame] in
  env3.

End WithFlags.

Arguments transID {TransFlags}.
Arguments initSpOffset {TransFlags}.
Arguments flags {TransFlags}.
Arguments srcKey {TransFlags}.
Arguments context {TransFlags}.
Arguments irgs_context {TransFlags}.
Arguments irgs_transFlags {TransFlags}.
Arguments irgs_unit {TransFlags}.
Arguments irb {TransFlags}.
Arguments bcStateStack {TransFlags}.
Arguments initial_marker {TransFlags}.
Arguments IRBuilder_new {TransFlags}.
Arguments updateMarker {TransFlags}.
Arguments IRGS_init {TransFlags}.
Arguments IRGS_new {TransFlags}.

End Construct.

(** ** The snapshot renderer *)

Module Render.

(** [FPIEnt]: one entry of a function's FPI table (the fields [show] reads). *)
Record FPIEnt : Type := {
  m_fpushOff : Z;
  m_fpOff : Z;
  m_parentIndex : Z
}.

(** [Unit::PrintOpts], built by chained setters. *)
Record PrintOpts : Type := {
  startOffset : Z;
  stopOffset : Z;
  showLines : bool;
  indentSize : nat;
  showFuncs : bool
}.

(** [Unit::PrintOpts()]: every field is overwritten by the chain in
    [checkFpi], so the initial values do not reach the printer. *)
Definition PrintOpts_default : PrintOpts :=
  {| startOffset := -1; stopOffset := -1; showLines := true;
     indentSize := 1%nat; showFuncs := true |}.

Definition range (o : PrintOpts) (start stop : Z) : PrintOpts :=
  {| startOffset := start; stopOffset := stop; showLines := showLines o;
     indentSize := indentSize o; showFuncs := showFuncs o |}.

Definition noLineNumbers (o : PrintOpts) : PrintOpts :=
  {| startOffset := startOffset o; stopOffset := stopOffset o;
     showLines := false; indentSize := indentSize o;
     showFuncs := showFuncs o |}.

Definition indent (o : PrintOpts) (n : nat) : PrintOpts :=
  {| startOffset := startOffset o; stopOffset := stopOffset o;
     showLines := showLines o; indentSize := n; showFuncs := showFuncs o |}.

Definition noFuncs (o : PrintOpts) : PrintOpts :=
  {| startOffset := startOffset o; stopOffset := stopOffset o;
     showLines := showLines o; indentSize := indentSize o;
     showFuncs := false |}.

(** The [Func] under translation, as [show] queries it. *)
Record Func : Type := {
  numLocals : nat;
  numSlotsInFrame : Z;
  maxStackCells : Z;
  fpitab : list FPIEnt;
  findFPI : Z -> option FPIEnt
}.

(** The [Unit]: [instrLen(unit->at(off))] and [prettyPrint]. *)
Record Unit : Type := {
  instrLenAt : Z -> Z;
  prettyPrint : PrintOpts -> string
}.

(** One line written to the output stream. [LHeader str] stands for
    [folly::format("+{:-^102}+\n", str)], [LElem n str] for
    [folly::format("| {:<100} |\n", folly::format("{:>2}: {}", n, str))]
    and [LBlank] for the lone line terminator between the two sections. *)
Inductive line : Type :=
| LHeader (str : string)
| LElem (index : Z) (str : string)
| LBlank.

(** The assertions of [show], in source order. *)
Inductive assertion : Type :=
| AssertStackDepth        (* stackDepth >= 0 *)
| AssertSpOffset          (* spOffset > 0, in elem *)
| AssertTrailingNewline   (* msgStr.back() == newline, in checkFpi *)
| AssertMaxStackCells.    (* i < maxStackCells, in the stack loop *)

(** The variables [show] mutates: the stream [out], the remaining-cell
    counter [spOffset] and the FPI cursor [fpi]. *)
Record walk : Type := {
  out : list line;
  spOffset : Z;
  fpi : option FPIEnt
}.

(** A computation over [walk] that may halt on an assertion. *)
Inductive outcome (A : Type) : Type :=
| Done (a : A) (w : walk)
| AssertFailed (which : assertion) (w : walk)
| OutOfFuel.

Arguments Done {A}.
Arguments AssertFailed {A}.
Arguments OutOfFuel {A}.

Definition M (A : Type) : Type := walk -> outcome A.

Definition ret {A} (a : A) : M A := fun w => Done a w.

Definition bind {A B} (c : M A) (k : A -> M B) : M B :=
  fun w =>
    match c w with
    | Done a w' => k a w'
    | AssertFailed which w' => AssertFailed which w'
    | OutOfFuel => OutOfFuel
    end.

Declare Scope walk_scope.
Delimit Scope walk_scope with walk.
Notation "x <- c ;; k" := (bind c (fun x => k))
  (at level 61, c at next level, right associativity) : walk_scope.
Notation "c ;; k" := (bind c (fun _ => k))
  (at level 61, right associativity) : walk_scope.

Definition assertx (which : assertion) (cond : bool) : M unit :=
  fun w => if cond then Done tt w else AssertFailed which w.

Definition getSpOffset : M Z := fun w => Done (spOffset w) w.

Definition setSpOffset (z : Z) : M unit :=
  fun w => Done tt {| out := out w; spOffset := z; fpi := fpi w |}.

Definition getFpi : M (option FPIEnt) := fun w => Done (fpi w) w.

Definition setFpi (f : option FPIEnt) : M unit :=
  fun w => Done tt {| out := out w; spOffset := spOffset w; fpi := f |}.

(** [out << l] *)
Definition emit (l : line) : M unit :=
  fun w => Done tt {| out := out w ++ [l]; spOffset := spOffset w; fpi := fpi w |}.

(** [for (unsigned i = 0; i < n; ++i) c] *)
Fixpoint repeatM (n : nat) (c : M unit) : M unit :=
  match n with
  | O => ret tt
  | S n' => (c ;; repeatM n' c)%walk
  end.

(** An [SSATmp] as [show] reads it: [type()] and [inst()->toString()]. *)
Record SSATmp `{TypeLattice} : Type := {
  tmp_type : Ty;
  inst_toString : string
}.

(** The [IRBuilder] as [show] queries it. The type-constraint argument
    ([DataTypeGeneric] everywhere) is omitted. *)
Record IRBuilder `{TypeLattice} : Type := {
  syncedSpLevel : Z;                    (* syncedSpLevel().offset *)
  stackType : Z -> Ty;
  stackValue : Z -> option SSATmp;
  localValue : nat -> option SSATmp;
  localType : nat -> Ty;
  predictedLocalType : nat -> Ty;
  predictedInnerType : nat -> Ty
}.

(** The translation state as [show] reads it, through the accessors of
    [irgen-internal.h]: [resumed], [curFunc], [curUnit], [bcOff],
    [offsetFromIRSP] and [predictedTypeFromStack]. *)
Record IRGS `{TypeLattice} : Type := {
  resumed : bool;
  curFunc : Func;
  curUnit : Unit;
  bcOff : Z;
  irb : IRBuilder;
  offsetFromIRSP : Z -> Z;
  predictedTypeFromStack : Z -> Ty
}.

(** Lines numbered upwards from [start], one per string. *)
Fixpoint numbered (start : Z) (strs : list string) : list line :=
  match strs with
  | [] => []
  | s :: rest => LElem start s :: numbered (start + 1) rest
  end.

(** The numbers printed on the [LElem] lines of a stream. *)
Fixpoint elemIndices (ls : list line) : list Z :=
  match ls with
  | [] => []
  | LElem n _ :: rest => n :: elemIndices rest
  | _ :: rest => elemIndices rest
  end.

(** The leading [LElem] lines of a stream. *)
Fixpoint takeElems (ls : list line) : list line :=
  match ls with
  | LElem n s :: rest => LElem n s :: takeElems rest
  | _ => []
  end.

(** The stack section of a snapshot: the lines between the first border
    and the next. *)
Definition stackSection (ls : list line) : list line :=
  match ls with
  | LHeader _ :: rest => takeElems rest
  | _ => []
  end.

Section Show.

Context {TL : TypeLattice}.

(** [kNumActRecCells], the number of stack cells an [ActRec] occupies
    ([act-rec.h], absent): a parameter. *)
Variable kNumActRecCells : nat.

Variable irgs : IRGS.

Definition frameCells : Z :=
  if resumed irgs then 0 else numSlotsInFrame (curFunc irgs).

Definition stackDepth : Z := syncedSpLevel (irb irgs) - frameCells.

(** The lambda [header]. *)
Definition header (str : string) : M unit := emit (LHeader str).

(** The lambda [elem]: the line is written first, numbered
    [stackDepth - spOffset]; then [spOffset] is checked and decremented. *)
Definition elem (str : string) : M unit :=
  (sp <- getSpOffset ;;
   emit (LElem (stackDepth - sp) str) ;;
   assertx AssertSpOffset (0 <? sp) ;;
   setSpOffset (sp - 1))%walk.

(** The options [checkFpi] hands to the pretty-printer. *)
Definition fpushPrintOpts (fpushOff after : Z) : PrintOpts :=
  noFuncs (indent (noLineNumbers (range PrintOpts_default fpushOff after)) 0).

(** [msg.str()] in [checkFpi], before the last character is erased. *)
Definition fpiMsg (e : FPIEnt) : string :=
  let fpushOff := m_fpushOff e in
  let after := fpushOff + instrLenAt (curUnit irgs) fpushOff in
  ("ActRec from " ++ prettyPrint (curUnit irgs) (fpushPrintOpts fpushOff after))%string.

(** The label of a region's lines: [msgStr] once its last character is erased. *)
Definition fpiLabel (e : FPIEnt) : string := string_pop_back (fpiMsg e).

(** [fpi->m_parentIndex != -1 ? &fpitab()[fpi->m_parentIndex] : nullptr].
    Indexing outside the table is undefined in the source; it yields no
    entry here. *)
Definition fpiParent (e : FPIEnt) : option FPIEnt :=
  if m_parentIndex e =? -1 then None
  else if m_parentIndex e <? 0 then None
  else nth_error (fpitab (curFunc irgs)) (Z.to_nat (m_parentIndex e)).

(** The guard of [checkFpi]: [fpi && spOffset + frameCells == fpi->m_fpOff]. *)
Definition fpiStartsHere (w : walk) : bool :=
  match fpi w with
  | Some e => spOffset w + frameCells =? m_fpOff e
  | None => false
  end.

(** The lambda [checkFpi]. *)
Definition checkFpi : M bool :=
  (f <- getFpi ;;
   sp <- getSpOffset ;;
   match f with
   | Some e =>
       if sp + frameCells =? m_fpOff e then
         let msgStr := fpiMsg e in
         assertx AssertTrailingNewline (endsWithNewline msgStr) ;;
         let msgStr := string_pop_back msgStr in
         repeatM kNumActRecCells (elem msgStr) ;;
         setFpi (fpiParent e) ;;
         ret true
       else ret false
   | None => ret false
   end)%walk.

(** The text of the stack cell at offset [i] from the top of the stack:
    lines 105 to 126 of the source. *)
Definition stackCellText (i : Z) : string :=
  let stkTy := stackType (irb irgs) (offsetFromIRSP irgs i) in
  let stkVal := stackValue (irb irgs) (offsetFromIRSP irgs i) in
  let elemStr :=
    if ty_eqb stkTy TStkElem then "unknown"%string
    else match stkVal with
         | Some v => inst_toString v
         | None => ty_toString stkTy
         end in
  let predicted := predictedTypeFromStack irgs i in
  if strictSubtypeOf predicted stkTy
  then (elemStr ++ " (predict: " ++ ty_toString predicted ++ ")")%string
  else elemStr.

(** One iteration of the stack loop, entered with [spOffset > 0]; the
    result is the value of [i] for the next iteration. *)
Definition loopBody (i : Z) : M Z :=
  (assertx AssertMaxStackCells (i <? maxStackCells (curFunc irgs)) ;;
   b <- checkFpi ;;
   if (b : bool) then ret (i + Z.of_nat kNumActRecCells)
   else (elem (stackCellText i) ;; ret (i + 1)))%walk.

(** [for (auto i = 0; spOffset > 0; ) { ... }], from the given [i]. *)
Fixpoint stackLoop (fuel : nat) (i : Z) : M unit :=
  fun w =>
    if 0 <? spOffset w then
      match fuel with
      | O => OutOfFuel
      | S fuel' => (i' <- loopBody i ;; stackLoop fuel' i')%walk w
      end
    else Done tt w.

(** The type of local [i] as [show] takes it: the value's type when a
    value is known, the tracked type otherwise. *)
Definition localTy (i : nat) : Ty :=
  match localValue (irb irgs) i with
  | Some v => tmp_type v
  | None => localType (irb irgs) i
  end.

(** The text of local [i] before the inner-type annotation: lines 137 to 143. *)
Definition localBaseText (i : nat) : string :=
  let str :=
    match localValue (irb irgs) i with
    | Some v => inst_toString v
    | None => ty_toString (localTy i)
    end in
  let predicted := predictedLocalType (irb irgs) i in
  if strictSubtypeOf predicted (localTy i)
  then (str ++ " (predict: " ++ ty_toString predicted ++ ")")%string
  else str.

(** The text of local [i]: lines 137 to 150. *)
Definition localText (i : nat) : string :=
  let str := localBaseText i in
  if subtypeOf (localTy i) TBoxedCell then
    let pred := predictedInnerType (irb irgs) i in
    if negb (ty_eqb pred TBottom)
    then (str ++ " (predict inner: " ++ ty_toString pred ++ ")")%string
    else str
  else str.

(** The locals loop: one line per local, numbered by the local. *)
Definition localsLoop : M unit :=
  fun w =>
    Done tt {| out := out w ++ map (fun i => LElem (Z.of_nat i) (localText i))
                                   (seq 0 (numLocals (curFunc irgs)));
               spOffset := spOffset w;
               fpi := fpi w |}.

(** What [show] writes after the stack loop: the closing border, the
    blank line and the locals section. *)
Definition afterStack : list line :=
  [LHeader ""; LBlank;
   LHeader (" " ++ dec (Z.of_nat (numLocals (curFunc irgs))) ++ " local(s) ")]
  ++ map (fun i => LElem (Z.of_nat i) (localText i))
         (seq 0 (numLocals (curFunc irgs)))
  ++ [LHeader ""].

(** The state in which the first statement after [assertx(stackDepth >= 0)]
    runs: nothing written, [spOffset = stackDepth], [fpi] looked up at the
    current bytecode offset. *)
Definition initWalk : walk :=
  {| out := [];
     spOffset := stackDepth;
     fpi := findFPI (curFunc irgs) (bcOff irgs) |}.

(** [show], with the given bound on the number of iterations of the stack loop. *)
Definition show_fuel (fuel : nat) : outcome (list line) :=
  (assertx AssertStackDepth (0 <=? stackDepth) ;;
   header (" " ++ dec stackDepth ++ " stack element(s): ") ;;
   stackLoop fuel 0 ;;
   header "" ;;
   emit LBlank ;;
   header (" " ++ dec (Z.of_nat (numLocals (curFunc irgs))) ++ " local(s) ") ;;
   localsLoop ;;
   header "" ;;
   fun w => Done (out w) w)%walk initWalk.

(** [show]. An [ActRec] occupies a positive number of cells, and then
    every iteration of the stack loop that does not halt lowers [spOffset]:
    [stackDepth] iterations are enough ([stackLoop_fuel_enough],
    [show_not_OutOfFuel] below). Only with [kNumActRecCells = 0] can the
    bound be reached. *)
Definition show : outcome (list line) := show_fuel (Z.to_nat stackDepth).

(** The state in which the stack loop is entered: the header is written. *)
Definition stackStart : walk :=
  {| out := [LHeader (" " ++ dec stackDepth ++ " stack element(s): ")];
     spOffset := stackDepth;
     fpi := findFPI (curFunc irgs) (bcOff irgs) |}.

(** The head of the stack loop reached [n] iterations after the head
    [(i, w)]; [None] when the loop ends or halts before. *)
Fixpoint headsFrom (n : nat) (i : Z) (w : walk) : option (Z * walk) :=
  match n with
  | O => Some (i, w)
  | S n' =>
      if 0 <? spOffset w then
        match loopBody i w with
        | Done i' w' => headsFrom n' i' w'
        | _ => None
        end
      else None
  end.

(** The head of the stack loop of [show] after [n] iterations, with the
    value of [i] there. *)
Definition headAt (n : nat) : option (Z * walk) :=
  if 0 <=? stackDepth then headsFrom n 0 stackStart else None.

End Show.

End Render.

(** ** Concrete states

    A small instance of the type lattice, in the manner of [jit::Type]'s
    bit sets (a type is the set of its bits, a subtype is a subset), and a
    few translation states to run [show] on. *)

Module Examples.

Import Render.

Definition bInt : N := 1.
Definition bDbl : N := 2.
Definition bStr : N := 4.
Definition bCell : N := 63.
Definition bBoxedCell : N := 64.
Definition bGen : N := 127.
Definition bStkElem : N := 255.

Definition bits_toString (t : N) : string :=
  if N.eqb t 0 then "Bottom"
  else if N.eqb t bInt then "Int"
  else if N.eqb t bDbl then "Dbl"
  else if N.eqb t bStr then "Str"
  else if N.eqb t bCell then "Cell"
  else if N.eqb t bBoxedCell then "BoxedCell"
  else if N.eqb t bGen then "Gen"
  else if N.eqb t bStkElem then "StkElem"
  else "Union".

#[export] Instance BitTypes : TypeLattice := {|
  Ty := N;
  ty_eqb := N.eqb;
  ty_eqb_spec := N.eqb_spec;
  subtypeOf := fun a b => N.eqb (N.land a b) a;
  TStkElem := bStkElem;
  TBoxedCell := bBoxedCell;
  TBottom := 0%N;
  ty_toString := bits_toString
|}.

Definition withNewline (s : string) : string :=
  (s ++ String newline EmptyString)%string.

(** A unit whose push instructions are two bytes long; the one at offset 10
    prints as [FPushFuncD 1 foo], any other as [FPushObjMethodD 2 bar]. *)
Definition unitA : Unit :=
  {| instrLenAt := fun _ => 2;
     prettyPrint := fun o =>
       if startOffset o =? 10 then withNewline "FPushFuncD 1 foo"
       else withNewline "FPushObjMethodD 2 bar" |}.

(** A builder with the stack types [Int], [Dbl], [Str] from the top (and
    [StkElem] below), no known values, no narrower predictions; local 0 is
    an [Int], local 1 a boxed cell whose inner type is predicted [Str]. *)
Definition stackTypeA (off : Z) : N :=
  if off =? 0 then bInt else if off =? 1 then bDbl
  else if off =? 2 then bStr else bStkElem.

Definition builderA (sp : Z) : IRBuilder :=
  {| syncedSpLevel := sp;
     stackType := stackTypeA;
     stackValue := fun _ => None;
     localValue := fun _ => None;
     localType := fun i => if Nat.eqb i 1 then bBoxedCell else bInt;
     predictedLocalType := fun i => if Nat.eqb i 1 then bBoxedCell else bInt;
     predictedInnerType := fun i => if Nat.eqb i 1 then bStr else 0%N |}.

Definition mkIRGS (res : bool) (slots maxCells : Z) (tab : list FPIEnt)
    (cur : option FPIEnt) (sp : Z) : IRGS :=
  {| resumed := res;
     curFunc := {| numLocals := 2; numSlotsInFrame := slots;
                   maxStackCells := maxCells; fpitab := tab;
                   findFPI := fun _ => cur |};
     curUnit := unitA;
     bcOff := 20;
     irb := builderA sp;
     offsetFromIRSP := fun i => i;
     predictedTypeFromStack := stackTypeA |}.

(** Two locals, three stack cells, no call being set up. *)
Definition plain3 : IRGS := mkIRGS false 2 10 [] None 5.

(** The synchronised stack pointer below the frame's slots. *)
Definition negativeDepth : IRGS := mkIRGS false 2 10 [] None 1.

Definition fpiTop (fpOff : Z) : FPIEnt :=
  {| m_fpushOff := 10; m_fpOff := fpOff; m_parentIndex := -1 |}.

(** Three stack cells, all of them the [ActRec] of the call being set up. *)
Definition region3 : IRGS := mkIRGS false 2 10 [fpiTop 5] (Some (fpiTop 5)) 5.

(** The same with a declared maximum of one stack cell. *)
Definition region3max1 : IRGS := mkIRGS false 2 1 [fpiTop 5] (Some (fpiTop 5)) 5.

(** A region starting where only two cells remain. *)
Definition region2 : IRGS := mkIRGS false 2 10 [fpiTop 4] (Some (fpiTop 4)) 4.

(** A resumed function with four stack cells and an entry whose frame
    offset is 0. *)
Definition resumed4 : IRGS := mkIRGS true 2 10 [fpiTop 0] (Some (fpiTop 0)) 4.

(** Two nested call set-ups on an eight-cell stack of a resumed function:
    from the top, one cell, the inner [ActRec], one cell, the outer [ActRec]. *)
Definition fpiOuter : FPIEnt :=
  {| m_fpushOff := 10; m_fpOff := 3; m_parentIndex := -1 |}.
Definition fpiInner : FPIEnt :=
  {| m_fpushOff := 14; m_fpOff := 7; m_parentIndex := 0 |}.
Definition nested8 : IRGS :=
  mkIRGS true 2 10 [fpiOuter; fpiInner] (Some fpiInner) 8.

End Examples.

(** ** The chain of enclosing call set-ups, and two more states *)

Module Chain.

Import Render.

(** The entry reached from [f] by following the parent link [k] times:
    what [fpi] holds after [k] regions have been rendered from [f]. *)
Fixpoint fpiAncestor `{TypeLattice} (irgs : IRGS) (k : nat)
    (f : option FPIEnt) : option FPIEnt :=
  match k with
  | O => f
  | S k' =>
      match f with
      | Some e => fpiAncestor irgs k' (fpiParent irgs e)
      | None => None
      end
  end.

(** The top-relative offsets [0 .. n-1]. *)
Definition offsets (n : nat) : list Z := map Z.of_nat (seq 0 n).

End Chain.

Module MoreExamples.

Import Render Examples.

(** A unit whose printer leaves out the line terminator. *)
Definition unitNoNewline : Unit :=
  {| instrLenAt := fun _ => 2;
     prettyPrint := fun _ => "FPushFuncD 1 foo"%string |}.

(** [region3] over that unit. *)
Definition region3NoNewline : IRGS :=
  {| resumed := false;
     curFunc := curFunc region3;
     curUnit := unitNoNewline;
     bcOff := 20;
     irb := irb region3;
     offsetFromIRSP := fun i => i;
     predictedTypeFromStack := stackTypeA |}.

(** No stack cell, a declared maximum of no cell, an entry registered. *)
Definition emptyStack : IRGS := mkIRGS false 2 0 [fpiTop 2] (Some (fpiTop 2)) 2.

(** Local 0 has a known value of type [Int] defined by a [LdLoc], while
    its tracked type is [Cell]; local 1 has no known value, the tracked
    type [Gen] and the predicted type [BoxedCell]. *)
Definition localsB : IRGS :=
  {| resumed := false;
     curFunc := curFunc plain3;
     curUnit := curUnit plain3;
     bcOff := 20;
     irb := {| syncedSpLevel := 2;
               stackType := stackTypeA;
               stackValue := fun _ => None;
               localValue := fun i =>
                 if Nat.eqb i 0
                 then Some {| tmp_type := bInt;
                              inst_toString := "t1:Int = LdLoc<0> t0:FramePtr" |}
                 else None;
               localType := fun i => if Nat.eqb i 0 then bCell else bGen;
               predictedLocalType := fun i =>
                 if Nat.eqb i 0 then bInt else bBoxedCell;
               predictedInnerType := fun _ => bStr |};
     offsetFromIRSP := fun i => i;
     predictedTypeFromStack := stackTypeA |}.

End MoreExamples.

(** Closes a goal that holds by running the renderer. *)
Ltac run := vm_compute; reflexivity.

(** * Properties of the renderer *)

Import Render.

Section ShowFacts.

Context {TL : TypeLattice}.
Variable kNumActRecCells : nat.
Variable irgs : IRGS.


(** *** Numbered lines *)

Lemma numbered_app (a : Z) (l1 l2 : list string) :
  numbered a (l1 ++ l2) = numbered a l1 ++ numbered (a + Z.of_nat (List.length l1)) l2.
Proof.
  revert a; induction l1 as [|s l1 IH]; intro a; simpl.
  - now rewrite Z.add_0_r.
  - rewrite IH. do 3 f_equal. lia.
Qed.

Lemma numbered_length (a : Z) (l : list string) :
  List.length (numbered a l) = List.length l.
Proof. revert a; induction l as [|x l IH]; intro a; simpl; auto. Qed.

Lemma elemIndices_app (l1 l2 : list line) :
  elemIndices (l1 ++ l2) = elemIndices l1 ++ elemIndices l2.
Proof.
  induction l1 as [|[h|n s|] l1 IH]; simpl; auto. now rewrite IH.
Qed.

Lemma elemIndices_numbered (a : Z) (l : list string) :
  elemIndices (numbered a l) = map (fun k => a + Z.of_nat k) (seq 0 (List.length l)).
Proof.
  revert a; induction l as [|s l IH]; intro a; simpl; auto.
  rewrite IH, Z.add_0_r. f_equal.
  rewrite <- seq_shift, map_map. apply map_ext. intro k. lia.
Qed.

Lemma numbered_nth (a : Z) (l : list string) (k : nat) (s : string) :
  nth_error l k = Some s ->
  nth_error (numbered a l) k = Some (LElem (a + Z.of_nat k) s).
Proof.
  revert a k; induction l as [|x l IH]; intros a [|k]; simpl; try discriminate.
  - intros [= ->]. now rewrite Z.add_0_r.
  - intro H. rewrite (IH (a + 1) k H). do 2 f_equal. lia.
Qed.

(** *** The lambda [elem] *)

Lemma elem_run (s : string) (w : walk) :
  elem irgs s w =
  if 0 <? spOffset w
  then Done tt {| out := out w ++ [LElem (stackDepth irgs - spOffset w) s];
                  spOffset := spOffset w - 1; fpi := fpi w |}
  else AssertFailed AssertSpOffset
         {| out := out w ++ [LElem (stackDepth irgs - spOffset w) s];
            spOffset := spOffset w; fpi := fpi w |}.
Proof.
  unfold elem, bind, getSpOffset, emit, assertx, setSpOffset; simpl.
  destruct (0 <? spOffset w); reflexivity.
Qed.

Lemma elem_not_OutOfFuel (s : string) (w : walk) : elem irgs s w <> OutOfFuel.
Proof. rewrite elem_run. destruct (0 <? spOffset w); discriminate. Qed.

(** [n] calls of [elem] that all return: [n] lines, numbered upwards. *)
Lemma repeat_elem_done (n : nat) (s : string) (w w' : walk) (u : unit) :
  repeatM n (elem irgs s) w = Done u w' ->
  out w' = out w ++ numbered (stackDepth irgs - spOffset w) (repeat s n) /\
  spOffset w' = spOffset w - Z.of_nat n /\
  fpi w' = fpi w /\
  (n = 0%nat \/ Z.of_nat n <= spOffset w).
Proof.
  revert w; induction n as [|n IH]; intros w H.
  - cbn in H. injection H as _ <-. simpl. rewrite app_nil_r, Z.sub_0_r. auto.
  - cbn [repeatM] in H. unfold bind in H. rewrite elem_run in H.
    destruct (0 <? spOffset w) eqn:E; [|discriminate].
    apply Z.ltb_lt in E.
    apply IH in H. cbn [out spOffset fpi] in H.
    destruct H as (Ho & Hs & Hf & Hn).
    rewrite Ho, Hs, Hf, <- app_assoc. cbn [repeat numbered app].
    split; [do 3 f_equal; lia|].
    split; [lia|]. split; [reflexivity|].
    right. destruct Hn as [->|Hn]; lia.
Qed.

(** [n] calls of [elem] with at least [n] cells remaining all return. *)
Lemma repeat_elem_enough (n : nat) (s : string) (w : walk) :
  Z.of_nat n <= spOffset w ->
  exists w', repeatM n (elem irgs s) w = Done tt w'.
Proof.
  revert w; induction n as [|n IH]; intros w H.
  - eexists; reflexivity.
  - cbn [repeatM]. unfold bind. rewrite elem_run.
    destruct (0 <? spOffset w) eqn:E; [|apply Z.ltb_ge in E; lia].
    apply IH. cbn. lia.
Qed.

(** [n] calls of [elem] with fewer than [n] cells remaining: the call made
    with no cell remaining writes its line and halts. *)
Lemma repeat_elem_underflow (n : nat) (s : string) (w : walk) :
  0 <= spOffset w < Z.of_nat n ->
  exists w',
    repeatM n (elem irgs s) w = AssertFailed AssertSpOffset w' /\
    out w' = out w ++ numbered (stackDepth irgs - spOffset w)
                               (repeat s (S (Z.to_nat (spOffset w)))) /\
    spOffset w' = 0 /\ fpi w' = fpi w.
Proof.
  revert w; induction n as [|n IH]; intros w H; [lia|].
  cbn [repeatM]. unfold bind. rewrite elem_run.
  destruct (0 <? spOffset w) eqn:E.
  - apply Z.ltb_lt in E.
    destruct (IH {| out := out w ++ [LElem (stackDepth irgs - spOffset w) s];
                    spOffset := spOffset w - 1; fpi := fpi w |})
      as (w' & Hr & Ho & Hs & Hf); [cbn; lia|].
    exists w'. split; [exact Hr|]. cbn [out spOffset fpi] in *.
    rewrite Ho, <- app_assoc.
    replace (Z.to_nat (spOffset w)) with (S (Z.to_nat (spOffset w - 1))) by lia.
    replace (stackDepth irgs - (spOffset w - 1))
      with (stackDepth irgs - spOffset w + 1) by lia.
    split; [reflexivity | auto].
  - apply Z.ltb_ge in E. assert (spOffset w = 0) as E0 by lia.
    eexists. split; [reflexivity|]. cbn [out spOffset fpi].
    rewrite E0. cbn. auto.
Qed.

Lemma repeat_elem_not_OutOfFuel (n : nat) (s : string) (w : walk) :
  repeatM n (elem irgs s) w <> OutOfFuel.
Proof.
  revert w; induction n as [|n IH]; intro w; [discriminate|].
  cbn [repeatM]. unfold bind. rewrite elem_run.
  destruct (0 <? spOffset w); [apply IH | discriminate].
Qed.


(** *** The lambda [checkFpi] *)

Lemma checkFpi_run (w : walk) :
  checkFpi kNumActRecCells irgs w =
  match fpi w with
  | Some e =>
      if spOffset w + frameCells irgs =? m_fpOff e then
        if endsWithNewline (fpiMsg irgs e) then
          match repeatM kNumActRecCells (elem irgs (fpiLabel irgs e)) w with
          | Done _ w1 =>
              Done true {| out := out w1; spOffset := spOffset w1;
                           fpi := fpiParent irgs e |}
          | AssertFailed a w1 => AssertFailed a w1
          | OutOfFuel => OutOfFuel
          end
        else AssertFailed AssertTrailingNewline w
      else Done false w
  | None => Done false w
  end.
Proof.
  unfold checkFpi, bind, getFpi, getSpOffset, assertx, setFpi, ret, fpiLabel.
  destruct (fpi w) as [e|]; [|reflexivity].
  destruct (spOffset w + frameCells irgs =? m_fpOff e); [|reflexivity].
  destruct (endsWithNewline (fpiMsg irgs e)); [|reflexivity].
  destruct (repeatM _ _ w); reflexivity.
Qed.

Lemma fpiStartsHere_iff (w : walk) :
  fpiStartsHere irgs w = true <->
  exists e, fpi w = Some e /\ spOffset w + frameCells irgs = m_fpOff e.
Proof.
  unfold fpiStartsHere. destruct (fpi w) as [e|].
  - rewrite Z.eqb_eq. split.
    + intro H. exists e. auto.
    + intros (e' & [= <-] & H). exact H.
  - split; [discriminate | intros (e & H & _); discriminate].
Qed.

Lemma checkFpi_no_region (w : walk) :
  fpiStartsHere irgs w = false -> checkFpi kNumActRecCells irgs w = Done false w.
Proof.
  unfold fpiStartsHere. rewrite checkFpi_run.
  destruct (fpi w) as [e|]; [|reflexivity].
  intros ->. reflexivity.
Qed.

Lemma checkFpi_returns_guard (w w' : walk) (b : bool) :
  checkFpi kNumActRecCells irgs w = Done b w' -> b = fpiStartsHere irgs w.
Proof.
  unfold fpiStartsHere. rewrite checkFpi_run.
  destruct (fpi w) as [e|]; [|now intros [= <- _]].
  destruct (spOffset w + frameCells irgs =? m_fpOff e); [|now intros [= <- _]].
  destruct (endsWithNewline (fpiMsg irgs e)); [|discriminate].
  destruct (repeatM _ _ w); [|discriminate..]. now intros [= <- _].
Qed.

(** What a region check that returns [true] has done. *)
Lemma checkFpi_region (w w' : walk) :
  checkFpi kNumActRecCells irgs w = Done true w' ->
  exists e,
    fpi w = Some e /\
    spOffset w + frameCells irgs = m_fpOff e /\
    endsWithNewline (fpiMsg irgs e) = true /\
    out w' = out w ++ numbered (stackDepth irgs - spOffset w)
                               (repeat (fpiLabel irgs e) kNumActRecCells) /\
    spOffset w' = spOffset w - Z.of_nat kNumActRecCells /\
    fpi w' = fpiParent irgs e /\
    (kNumActRecCells = 0%nat \/ Z.of_nat kNumActRecCells <= spOffset w).
Proof.
  rewrite checkFpi_run.
  destruct (fpi w) as [e|]; [|discriminate].
  destruct (spOffset w + frameCells irgs =? m_fpOff e) eqn:E; [|discriminate].
  destruct (endsWithNewline (fpiMsg irgs e)) eqn:N; [|discriminate].
  destruct (repeatM _ _ w) as [u w1| |] eqn:R; [|discriminate..].
  intros [= <-]. apply repeat_elem_done in R.
  destruct R as (Ho & Hs & _ & Hn).
  exists e. cbn [out spOffset fpi]. apply Z.eqb_eq in E. auto 10.
Qed.

Lemma checkFpi_not_OutOfFuel (w : walk) :
  checkFpi kNumActRecCells irgs w <> OutOfFuel.
Proof.
  rewrite checkFpi_run.
  destruct (fpi w) as [e|]; [|discriminate].
  destruct (_ =? _); [|discriminate].
  destruct (endsWithNewline _); [|discriminate].
  destruct (repeatM _ _ w) eqn:R; try discriminate.
  now apply repeat_elem_not_OutOfFuel in R.
Qed.

(** *** One iteration of the stack loop *)

Lemma loopBody_run (i : Z) (w : walk) :
  loopBody kNumActRecCells irgs i w =
  if i <? maxStackCells (curFunc irgs) then
    match checkFpi kNumActRecCells irgs w with
    | Done true w1 => Done (i + Z.of_nat kNumActRecCells) w1
    | Done false w1 =>
        match elem irgs (stackCellText irgs i) w1 with
        | Done _ w2 => Done (i + 1) w2
        | AssertFailed a w2 => AssertFailed a w2
        | OutOfFuel => OutOfFuel
        end
    | AssertFailed a w1 => AssertFailed a w1
    | OutOfFuel => OutOfFuel
    end
  else AssertFailed AssertMaxStackCells w.
Proof.
  unfold loopBody, bind, assertx, ret.
  destruct (i <? maxStackCells (curFunc irgs)); [|reflexivity].
  destruct (checkFpi kNumActRecCells irgs w) as [[|] w1| |]; reflexivity.
Qed.

(** An iteration that returns has written lines numbered upwards from
    [stackDepth - spOffset], lowered [spOffset] by their number and raised
    [i] by the same. *)
Lemma loopBody_done (i i' : Z) (w w' : walk) :
  0 < spOffset w ->
  loopBody kNumActRecCells irgs i w = Done i' w' ->
  i < maxStackCells (curFunc irgs) /\
  exists strs,
    out w' = out w ++ numbered (stackDepth irgs - spOffset w) strs /\
    spOffset w' = spOffset w - Z.of_nat (List.length strs) /\
    i' = i + Z.of_nat (List.length strs) /\
    0 <= spOffset w' /\
    (0 < kNumActRecCells -> strs <> [])%nat.
Proof.
  intros Hsp H. rewrite loopBody_run in H.
  destruct (i <? maxStackCells (curFunc irgs)) eqn:Hmax; [|discriminate].
  apply Z.ltb_lt in Hmax. split; [exact Hmax|].
  destruct (checkFpi kNumActRecCells irgs w) as [[|] w1| |] eqn:C;
    try discriminate.
  - injection H as <- <-. apply checkFpi_region in C.
    destruct C as (e & _ & _ & _ & Ho & Hs & _ & Hn).
    exists (repeat (fpiLabel irgs e) kNumActRecCells).
    rewrite repeat_length. repeat split; auto; try lia.
    destruct kNumActRecCells; [lia | discriminate].
  - pose proof (checkFpi_returns_guard _ _ _ C) as G. symmetry in G.
    rewrite (checkFpi_no_region _ G) in C. injection C as <-.
    rewrite elem_run in H. destruct (0 <? spOffset w) eqn:E; [|discriminate].
    injection H as <- <-. exists [stackCellText irgs i]. cbn.
    repeat split; auto; try lia. discriminate.
Qed.

Lemma loopBody_not_OutOfFuel (i : Z) (w : walk) :
  loopBody kNumActRecCells irgs i w <> OutOfFuel.
Proof.
  rewrite loopBody_run. destruct (i <? _); [|discriminate].
  destruct (checkFpi _ _ w) as [[|] w1| |] eqn:C; try discriminate.
  - destruct (elem _ _ w1) eqn:E; try discriminate.
    now apply elem_not_OutOfFuel in E.
  - now apply checkFpi_not_OutOfFuel in C.
Qed.

(** *** The heads of the stack loop *)

Lemma headsFrom_inv (n : nat) (i i' : Z) (w w' : walk) :
  0 <= spOffset w ->
  headsFrom kNumActRecCells irgs n i w = Some (i', w') ->
  0 <= spOffset w' /\
  exists strs,
    out w' = out w ++ numbered (stackDepth irgs - spOffset w) strs /\
    spOffset w' = spOffset w - Z.of_nat (List.length strs) /\
    i' = i + Z.of_nat (List.length strs).
Proof.
  revert i w; induction n as [|n IH]; intros i w Hsp H.
  - injection H as <- <-. split; [exact Hsp|]. exists [].
    cbn. rewrite app_nil_r. split; [reflexivity|]. lia.
  - cbn [headsFrom] in H.
    destruct (0 <? spOffset w) eqn:E; [|discriminate]. apply Z.ltb_lt in E.
    destruct (loopBody kNumActRecCells irgs i w) as [i1 w1| |] eqn:B;
      try discriminate.
    apply (loopBody_done _ _ _ _ E) in B.
    destruct B as (_ & s1 & Ho1 & Hs1 & Hi1 & Hp1 & _).
    destruct (IH _ _ Hp1 H) as (Hp & s2 & Ho2 & Hs2 & Hi2).
    split; [exact Hp|]. exists (s1 ++ s2).
    rewrite Ho2, Ho1, <- app_assoc, numbered_app, length_app, Nat2Z.inj_add.
    rewrite Hs1. split; [do 3 f_equal; lia|]. lia.
Qed.

(** At every head of the stack loop of [show], [i] cells are done and
    [spOffset] remain. *)
Lemma headAt_inv (n : nat) (i : Z) (w : walk) :
  headAt kNumActRecCells irgs n = Some (i, w) ->
  0 <= spOffset w /\ i + spOffset w = stackDepth irgs /\
  exists strs,
    out w = LHeader (" " ++ dec (stackDepth irgs) ++ " stack element(s): ")
            :: numbered 0 strs /\
    Z.of_nat (List.length strs) = i.
Proof.
  unfold headAt. destruct (0 <=? stackDepth irgs) eqn:E; [|discriminate].
  apply Z.leb_le in E. intro H.
  apply headsFrom_inv in H; [|exact E].
  destruct H as (Hp & strs & Ho & Hs & Hi). cbn [stackStart out spOffset] in *.
  split; [exact Hp|]. split; [lia|]. exists strs.
  rewrite Ho, Z.sub_diag. split; [reflexivity | lia].
Qed.

Lemma headsFrom_step (n : nat) (i i' : Z) (w w' : walk) :
  headsFrom kNumActRecCells irgs n i w = Some (i', w') ->
  headsFrom kNumActRecCells irgs (S n) i w =
  if 0 <? spOffset w' then
    match loopBody kNumActRecCells irgs i' w' with
    | Done i2 w2 => Some (i2, w2)
    | _ => None
    end
  else None.
Proof.
  revert i w; induction n as [|n IH]; intros i w H.
  - injection H as <- <-. cbn [headsFrom]. destruct (0 <? spOffset w); auto.
  - cbn [headsFrom] in H. cbn [headsFrom].
    destruct (0 <? spOffset w); [|discriminate].
    destruct (loopBody kNumActRecCells irgs i w) as [i1 w1| |]; try discriminate.
    rewrite <- (IH _ _ H). reflexivity.
Qed.

(** The loop, run from a head that [n] iterations reach, continues from
    the head reached. *)
Lemma stackLoop_from_head (n fuel : nat) (i i' : Z) (w w' : walk) :
  headsFrom kNumActRecCells irgs n i w = Some (i', w') ->
  stackLoop kNumActRecCells irgs (n + fuel) i w =
  stackLoop kNumActRecCells irgs fuel i' w'.
Proof.
  revert i w; induction n as [|n IH]; intros i w H.
  - now injection H as <- <-.
  - cbn [headsFrom] in H. cbn [Nat.add stackLoop].
    destruct (0 <? spOffset w); [|discriminate]. unfold bind.
    destruct (loopBody kNumActRecCells irgs i w) as [i1 w1| |]; try discriminate.
    apply IH, H.
Qed.

(** A loop that returns has written, from any head, lines numbered upwards
    and as many as cells remained. *)
Lemma stackLoop_done (fuel : nat) (i : Z) (w w' : walk) (u : unit) :
  0 <= spOffset w ->
  stackLoop kNumActRecCells irgs fuel i w = Done u w' ->
  exists strs,
    out w' = out w ++ numbered (stackDepth irgs - spOffset w) strs /\
    Z.of_nat (List.length strs) = spOffset w /\
    spOffset w' = 0 /\
    exists n, headsFrom kNumActRecCells irgs n i w
              = Some (i + spOffset w, w').
Proof.
  revert i w; induction fuel as [|fuel IH]; intros i w Hsp H; cbn [stackLoop] in H.
  - destruct (0 <? spOffset w) eqn:E; [discriminate|].
    apply Z.ltb_ge in E. injection H as <- <-. exists [].
    assert (spOffset w = 0) as E0 by lia. rewrite E0. cbn.
    rewrite app_nil_r, Z.add_0_r. repeat split; auto. now exists 0%nat.
  - destruct (0 <? spOffset w) eqn:E.
    + apply Z.ltb_lt in E. unfold bind in H.
      destruct (loopBody kNumActRecCells irgs i w) as [i1 w1| |] eqn:B;
        try discriminate.
      pose proof (loopBody_done _ _ _ _ E B)
        as (_ & s1 & Ho1 & Hs1 & Hi1 & Hp1 & _).
      destruct (IH _ _ Hp1 H) as (s2 & Ho2 & Hl2 & Hs2 & n & Hn).
      exists (s1 ++ s2).
      rewrite Ho2, Ho1, <- app_assoc, numbered_app, length_app, Nat2Z.inj_add.
      split; [do 3 f_equal; lia|]. split; [lia|]. split; [exact Hs2|].
      exists (S n). cbn [headsFrom].
      apply Z.ltb_lt in E. rewrite E, B, Hn. do 2 f_equal. lia.
    + apply Z.ltb_ge in E. injection H as <- <-. exists [].
      assert (spOffset w = 0) as E0 by lia. rewrite E0. cbn.
      rewrite app_nil_r, Z.add_0_r. repeat split; auto. now exists 0%nat.
Qed.

(** With a positive [kNumActRecCells] every iteration that returns lowers
    [spOffset], so fuel for [spOffset] iterations is never used up. *)
Lemma stackLoop_not_OutOfFuel (fuel : nat) (i : Z) (w : walk) :
  (0 < kNumActRecCells)%nat ->
  spOffset w <= Z.of_nat fuel ->
  stackLoop kNumActRecCells irgs fuel i w <> OutOfFuel.
Proof.
  intro HW. revert i w; induction fuel as [|fuel IH]; intros i w Hf;
    cbn [stackLoop].
  - destruct (0 <? spOffset w) eqn:E; [|discriminate].
    apply Z.ltb_lt in E. lia.
  - destruct (0 <? spOffset w) eqn:E; [|discriminate].
    apply Z.ltb_lt in E. unfold bind.
    destruct (loopBody kNumActRecCells irgs i w) as [i1 w1| |] eqn:B.
    + apply (loopBody_done _ _ _ _ E) in B.
      destruct B as (_ & s1 & _ & Hs1 & _ & _ & Hne).
      apply IH. specialize (Hne HW). destruct s1; [congruence|].
      cbn [List.length] in Hs1. lia.
    + discriminate.
    + now apply loopBody_not_OutOfFuel in B.
Qed.

(** With a positive [kNumActRecCells], more fuel than [spOffset] changes
    nothing. *)
Lemma stackLoop_fuel_enough (fuel k : nat) (i : Z) (w : walk) :
  (0 < kNumActRecCells)%nat ->
  spOffset w <= Z.of_nat fuel ->
  stackLoop kNumActRecCells irgs (fuel + k) i w
  = stackLoop kNumActRecCells irgs fuel i w.
Proof.
  intro HW. revert i w; induction fuel as [|fuel IH]; intros i w Hf.
  - assert ((0 <? spOffset w) = false) as E by (apply Z.ltb_ge; lia).
    destruct k; cbn [Nat.add stackLoop]; now rewrite E.
  - cbn [Nat.add stackLoop].
    destruct (0 <? spOffset w) eqn:E; [|reflexivity].
    apply Z.ltb_lt in E. unfold bind.
    destruct (loopBody kNumActRecCells irgs i w) as [i1 w1| |] eqn:B;
      try reflexivity.
    apply (loopBody_done _ _ _ _ E) in B.
    destruct B as (_ & s1 & _ & Hs1 & _ & _ & Hne).
    apply IH. specialize (Hne HW). destruct s1; [congruence|].
    cbn [List.length] in Hs1. lia.
Qed.

(** *** [show] *)

Lemma show_fuel_run (fuel : nat) :
  show_fuel kNumActRecCells irgs fuel =
  if 0 <=? stackDepth irgs then
    match stackLoop kNumActRecCells irgs fuel 0 (stackStart irgs) with
    | Done _ w =>
        Done (out w ++ afterStack irgs)
             {| out := out w ++ afterStack irgs;
                spOffset := spOffset w; fpi := fpi w |}
    | AssertFailed a w => AssertFailed a w
    | OutOfFuel => OutOfFuel
    end
  else AssertFailed AssertStackDepth (initWalk irgs).
Proof.
  unfold show_fuel, bind, assertx, header, emit, localsLoop, afterStack.
  destruct (0 <=? stackDepth irgs); [|reflexivity].
  cbn [out spOffset fpi initWalk app]. fold (stackStart irgs).
  destruct (stackLoop _ _ fuel 0 (stackStart irgs)) as [u w| |]; auto.
  cbn [out spOffset fpi]. rewrite <- !app_assoc. reflexivity.
Qed.

Lemma takeElems_numbered (a : Z) (strs : list string) (h : string) (rest : list line) :
  takeElems (numbered a strs ++ LHeader h :: rest) = numbered a strs.
Proof.
  revert a; induction strs as [|s strs IH]; intro a; cbn; [reflexivity|].
  now rewrite IH.
Qed.

Lemma stackSection_show (h : string) (strs : list string) :
  stackSection (LHeader h :: numbered 0 strs ++ afterStack irgs) = numbered 0 strs.
Proof. unfold afterStack. cbn. apply takeElems_numbered. Qed.

(** A snapshot that is returned is complete: border, one numbered line per
    stack cell, then the locals section. *)
Lemma show_fuel_done (fuel : nat) (ls : list line) (w : walk) :
  show_fuel kNumActRecCells irgs fuel = Done ls w ->
  exists strs,
    ls = LHeader (" " ++ dec (stackDepth irgs) ++ " stack element(s): ")
         :: numbered 0 strs ++ afterStack irgs /\
    Z.of_nat (List.length strs) = stackDepth irgs.
Proof.
  rewrite show_fuel_run.
  destruct (0 <=? stackDepth irgs) eqn:E; [|discriminate]. apply Z.leb_le in E.
  destruct (stackLoop _ _ fuel 0 (stackStart irgs)) as [u w1| |] eqn:L;
    try discriminate.
  intros [= <- _]. apply stackLoop_done in L; [|exact E].
  destruct L as (strs & Ho & Hl & _). exists strs.
  rewrite Ho. cbn [stackStart out spOffset app] in *.
  rewrite Z.sub_diag. auto.
Qed.

(** C1 (amended): in the stack section every line is numbered by its
    distance from the top of the stack. At each head of the stack loop the
    number [elem] prints next, [stackDepth - spOffset], is the top-relative
    offset [i] of the cell examined; and a snapshot that is returned has
    exactly [stackDepth] stack lines, the one at position [o] from the top
    carrying the number [o] (0, 1, 2 for a three-cell stack). *)
Theorem stack_lines_numbered_from_top :
  (forall n i w,
      headAt kNumActRecCells irgs n = Some (i, w) ->
      stackDepth irgs - spOffset w = i) /\
  (forall ls w,
      show kNumActRecCells irgs = Done ls w ->
      exists strs,
        Z.of_nat (List.length strs) = stackDepth irgs /\
        stackSection ls = numbered 0 strs /\
        elemIndices (stackSection ls)
        = map Z.of_nat (seq 0 (Z.to_nat (stackDepth irgs))) /\
        forall o s, nth_error strs o = Some s ->
                    nth_error (stackSection ls) o = Some (LElem (Z.of_nat o) s)).
Proof.
  split.
  - intros n i w H. apply headAt_inv in H. lia.
  - intros ls w H. apply show_fuel_done in H.
    destruct H as (strs & -> & Hl). exists strs.
    rewrite stackSection_show. split; [exact Hl|]. split; [reflexivity|].
    split.
    + rewrite elemIndices_numbered, <- Hl, Nat2Z.id. apply map_ext. intro; lia.
    + intros o s Hn. now rewrite (numbered_nth 0 strs o s Hn).
Qed.

(** C3 (amended): at a head of the stack loop, where [i] cells from the
    top are done, the region check succeeds exactly when the number of
    cells still to render, [stackDepth - i], plus [frameCells] equals the
    frame offset of the entry under consideration. That entry is first the
    one found at the current bytecode offset, is kept by an iteration that
    renders a plain cell, and after a region becomes the region's parent
    (none when the parent index is -1). *)
Theorem checkFpi_tests_remaining_cells (n : nat) (i : Z) (w : walk) :
  headAt kNumActRecCells irgs n = Some (i, w) ->
  (fpiStartsHere irgs w = true <->
   exists e, fpi w = Some e /\
             (stackDepth irgs - i) + frameCells irgs = m_fpOff e) /\
  (fpiStartsHere irgs w = false ->
   checkFpi kNumActRecCells irgs w = Done false w) /\
  (forall b w', checkFpi kNumActRecCells irgs w = Done b w' ->
                b = fpiStartsHere irgs w) /\
  (forall w', checkFpi kNumActRecCells irgs w = Done true w' ->
              exists e, fpi w = Some e /\ fpi w' = fpiParent irgs e /\
                        (m_parentIndex e = -1 -> fpi w' = None)) /\
  (forall i' w', fpiStartsHere irgs w = false ->
                 loopBody kNumActRecCells irgs i w = Done i' w' ->
                 fpi w' = fpi w) /\
  (n = 0%nat -> fpi w = findFPI (curFunc irgs) (bcOff irgs)).
Proof.
  intro H. pose proof (headAt_inv _ _ _ H) as (_ & Hi & _).
  replace (stackDepth irgs - i) with (spOffset w) by lia.
  split; [apply fpiStartsHere_iff|].
  split; [apply checkFpi_no_region|].
  split; [intros b w'; apply checkFpi_returns_guard|].
  split; [|split].
  - intros w' C. apply checkFpi_region in C.
    destruct C as (e & He & _ & _ & _ & _ & Hp & _).
    exists e. split; [exact He|]. split; [exact Hp|].
    intro Hm. rewrite Hp. unfold fpiParent. now rewrite Hm.
  - intros i' w' G B. rewrite loopBody_run in B.
    destruct (i <? _); [|discriminate].
    rewrite (checkFpi_no_region _ G), elem_run in B.
    destruct (0 <? spOffset w); [|discriminate].
    now injection B as _ <-.
  - intros ->. unfold headAt in H.
    destruct (0 <=? stackDepth irgs); [|discriminate].
    now injection H as _ <-.
Qed.



(** C5: the text of a plain stack cell. With known type [k], value [v] and
    predicted type [p], where [p] is a subtype of [k]: the text starts with
    "unknown" when [k] is [TStkElem], else with the value's description
    when there is a value, else with the description of [k]; the
    " (predict: p)" suffix follows exactly when [p] differs from [k]. An
    iteration that finds no region writes this text on one line. *)
Theorem stack_cell_text_cases (i : Z) :
  let k := stackType (irb irgs) (offsetFromIRSP irgs i) in
  let v := stackValue (irb irgs) (offsetFromIRSP irgs i) in
  let p := predictedTypeFromStack irgs i in
  subtypeOf p k = true ->
  exists base : string,
    (k = TStkElem -> base = "unknown"%string) /\
    (k <> TStkElem -> forall t, v = Some t -> base = inst_toString t) /\
    (k <> TStkElem -> v = None -> base = ty_toString k) /\
    (p <> k ->
     stackCellText irgs i
     = (base ++ " (predict: " ++ ty_toString p ++ ")")%string) /\
    (p = k -> stackCellText irgs i = base) /\
    (forall w, 0 < spOffset w -> i < maxStackCells (curFunc irgs) ->
               fpiStartsHere irgs w = false ->
               loopBody kNumActRecCells irgs i w
               = Done (i + 1)
                   {| out := out w ++ [LElem (stackDepth irgs - spOffset w)
                                             (stackCellText irgs i)];
                      spOffset := spOffset w - 1;
                      fpi := fpi w |}).
Proof.
  intros k v p Hsub.
  exists (if ty_eqb k TStkElem then "unknown"%string
          else match v with
               | Some t => inst_toString t
               | None => ty_toString k
               end).
  assert (strictSubtypeOf p k = negb (ty_eqb p k)) as Hstrict.
  { unfold strictSubtypeOf. rewrite Hsub. apply andb_true_r. }
  repeat split.
  - intro E. destruct (ty_eqb_spec k TStkElem); [reflexivity | contradiction].
  - intros N t Hv. destruct (ty_eqb_spec k TStkElem); [contradiction|].
    now rewrite Hv.
  - intros N Hv. destruct (ty_eqb_spec k TStkElem); [contradiction|].
    now rewrite Hv.
  - intro N. unfold stackCellText. fold k v p. rewrite Hstrict.
    destruct (ty_eqb_spec p k); [contradiction | reflexivity].
  - intro E. unfold stackCellText. fold k v p. rewrite Hstrict.
    destruct (ty_eqb_spec p k); [reflexivity | contradiction].
  - intros w Hsp Hmax G. rewrite loopBody_run.
    apply Z.ltb_lt in Hmax, Hsp.
    now rewrite Hmax, (checkFpi_no_region _ G), elem_run, Hsp.
Qed.

(** C6: [frameCells] is 0 in a resumed function and the frame's slot count
    otherwise; [stackDepth] is the synchronised stack-pointer offset less
    [frameCells]; and when that is negative [show] halts on the first
    assertion with nothing written. *)
Theorem negative_stack_depth_halts_before_output :
  (resumed irgs = true -> frameCells irgs = 0) /\
  (resumed irgs = false -> frameCells irgs = numSlotsInFrame (curFunc irgs)) /\
  stackDepth irgs = syncedSpLevel (irb irgs) - frameCells irgs /\
  (stackDepth irgs < 0 ->
   show kNumActRecCells irgs = AssertFailed AssertStackDepth (initWalk irgs) /\
   out (initWalk irgs) = []).
Proof.
  split; [unfold frameCells; now intros ->|].
  split; [unfold frameCells; now intros ->|].
  split; [reflexivity|].
  intro H. split; [|reflexivity]. unfold show. rewrite show_fuel_run.
  apply Z.leb_gt in H. now rewrite H.
Qed.

(** [show] with a positive [kNumActRecCells] never runs out of iterations. *)
Lemma show_not_OutOfFuel :
  (0 < kNumActRecCells)%nat -> show kNumActRecCells irgs <> OutOfFuel.
Proof.
  intro HW. unfold show. rewrite show_fuel_run.
  destruct (0 <=? stackDepth irgs) eqn:E; [|discriminate]. apply Z.leb_le in E.
  destruct (stackLoop _ _ _ 0 (stackStart irgs)) eqn:L; try discriminate.
  apply stackLoop_not_OutOfFuel in L; [contradiction | exact HW |].
  cbn. lia.
Qed.

(** With a positive [kNumActRecCells], [show] is [show_fuel] at any larger
    bound. *)
Lemma show_fuel_enough (k : nat) :
  (0 < kNumActRecCells)%nat ->
  show_fuel kNumActRecCells irgs (Z.to_nat (stackDepth irgs) + k)
  = show kNumActRecCells irgs.
Proof.
  intro HW. unfold show. rewrite !show_fuel_run.
  destruct (0 <=? stackDepth irgs) eqn:E; [|reflexivity]. apply Z.leb_le in E.
  rewrite (stackLoop_fuel_enough _ k 0 (stackStart irgs) HW); [reflexivity|].
  cbn. lia.
Qed.

(** An iteration that halts at a head of the stack loop halts [show]. *)
Lemma show_halts_at_head (n : nat) (i : Z) (w w' : walk) (a : assertion) :
  (0 < kNumActRecCells)%nat ->
  headAt kNumActRecCells irgs n = Some (i, w) ->
  0 < spOffset w ->
  loopBody kNumActRecCells irgs i w = AssertFailed a w' ->
  show kNumActRecCells irgs = AssertFailed a w'.
Proof.
  intros HW H Hsp B. rewrite <- (show_fuel_enough (S n) HW).
  replace (Z.to_nat (stackDepth irgs) + S n)%nat
    with (n + S (Z.to_nat (stackDepth irgs)))%nat by lia.
  rewrite show_fuel_run. unfold headAt in H.
  destruct (0 <=? stackDepth irgs); [|discriminate].
  rewrite (stackLoop_from_head _ _ _ _ _ _ H). cbn [stackLoop].
  apply Z.ltb_lt in Hsp. rewrite Hsp. unfold bind. now rewrite B.
Qed.

(** C7 (amended): a call of [elem] with no cell remaining writes its line
    and then halts on the assertion; so does a region wider than what
    remains, after one line more than the cells remaining, and [show] halts
    with it. The stream so written is not returned: with a positive
    [kNumActRecCells], [show] either halts on an assertion or returns a
    complete snapshot of [stackDepth] stack lines followed by the locals
    section. *)
Theorem underflow_halts_after_writing_line :
  (forall s w,
      spOffset w <= 0 ->
      elem irgs s w
      = AssertFailed AssertSpOffset
          {| out := out w ++ [LElem (stackDepth irgs - spOffset w) s];
             spOffset := spOffset w; fpi := fpi w |}) /\
  (forall w e,
      fpi w = Some e ->
      spOffset w + frameCells irgs = m_fpOff e ->
      endsWithNewline (fpiMsg irgs e) = true ->
      0 <= spOffset w < Z.of_nat kNumActRecCells ->
      exists w',
        checkFpi kNumActRecCells irgs w = AssertFailed AssertSpOffset w' /\
        out w' = out w ++ numbered (stackDepth irgs - spOffset w)
                   (repeat (fpiLabel irgs e) (S (Z.to_nat (spOffset w)))) /\
        forall n i,
          headAt kNumActRecCells irgs n = Some (i, w) ->
          0 < spOffset w ->
          i < maxStackCells (curFunc irgs) ->
          show kNumActRecCells irgs = AssertFailed AssertSpOffset w') /\
  ((0 < kNumActRecCells)%nat ->
   (exists a w, show kNumActRecCells irgs = AssertFailed a w) \/
   (exists strs w,
      show kNumActRecCells irgs
      = Done (LHeader (" " ++ dec (stackDepth irgs) ++ " stack element(s): ")
              :: numbered 0 strs ++ afterStack irgs) w /\
      Z.of_nat (List.length strs) = stackDepth irgs)).
Proof.
  split; [|split].
  - intros s w H. rewrite elem_run.
    apply Z.ltb_ge in H. now rewrite H.
  - intros w e He Hoff Hnl Hsp.
    destruct (repeat_elem_underflow kNumActRecCells (fpiLabel irgs e) w Hsp)
      as (w' & Hr & Ho & _).
    assert (checkFpi kNumActRecCells irgs w = AssertFailed AssertSpOffset w')
      as C.
    { rewrite checkFpi_run, He. apply Z.eqb_eq in Hoff.
      now rewrite Hoff, Hnl, Hr. }
    exists w'. split; [exact C|]. split; [exact Ho|].
    intros n i H Hpos Hmax.
    apply (show_halts_at_head n i w); [lia | exact H | exact Hpos |].
    rewrite loopBody_run, C. apply Z.ltb_lt in Hmax. now rewrite Hmax.
  - intro HW. pose proof (show_not_OutOfFuel HW) as NF.
    destruct (show kNumActRecCells irgs) as [ls w|a w|] eqn:HS.
    + right. unfold show in HS. pose proof (show_fuel_done _ _ _ HS)
        as (strs & -> & Hl).
      now exists strs, w.
    + left. now exists a, w.
    + contradiction.
Qed.

(** C8: the text of a local ends with " (predict inner: t)" exactly when
    the local's type is a subtype of [TBoxedCell] and the predicted inner
    type [t] is not [TBottom]; the locals section shows this text on the
    line of the local. *)
Theorem local_inner_prediction_suffix (i : nat) :
  let pred := predictedInnerType (irb irgs) i in
  (subtypeOf (localTy irgs i) TBoxedCell = true -> pred <> TBottom ->
   localText irgs i
   = (localBaseText irgs i ++ " (predict inner: " ++ ty_toString pred ++ ")")%string) /\
  (pred = TBottom -> localText irgs i = localBaseText irgs i) /\
  (subtypeOf (localTy irgs i) TBoxedCell = false ->
   localText irgs i = localBaseText irgs i) /\
  ((i < numLocals (curFunc irgs))%nat ->
   nth_error (afterStack irgs) (3 + i)
   = Some (LElem (Z.of_nat i) (localText irgs i))).
Proof.
  intro pred. unfold localText. fold pred. repeat split.
  - intros -> N. destruct (ty_eqb_spec pred TBottom); [contradiction|reflexivity].
  - intros E. destruct (subtypeOf _ _); [|reflexivity].
    destruct (ty_eqb_spec pred TBottom); [reflexivity|contradiction].
  - now intros ->.
  - intro Hi. unfold afterStack. cbn [app Nat.add nth_error].
    rewrite nth_error_app1 by now rewrite length_map, length_seq.
    rewrite nth_error_map, nth_error_seq.
    apply Nat.ltb_lt in Hi. now rewrite Hi.
Qed.

(** *** Strings *)

Lemma string_back_app (a b : string) :
  b <> EmptyString -> string_back (a ++ b) = string_back b.
Proof.
  intro Hb. induction a as [|c a IH]; [reflexivity|].
  cbn [append string_back]. rewrite IH.
  destruct (a ++ b)%string eqn:E; [|reflexivity].
  destruct a; [cbn in E; contradiction | discriminate].
Qed.

Lemma string_pop_back_app (a b : string) :
  b <> EmptyString ->
  string_pop_back (a ++ b) = (a ++ string_pop_back b)%string.
Proof.
  intro Hb. induction a as [|c a IH]; [reflexivity|].
  cbn [append string_pop_back]. rewrite IH.
  destruct (a ++ b)%string eqn:E; [|reflexivity].
  destruct a; [cbn in E; contradiction | discriminate].
Qed.

Lemma endsWithNewline_split (s : string) :
  endsWithNewline s = true ->
  s = (string_pop_back s ++ String newline EmptyString)%string.
Proof.
  unfold endsWithNewline. induction s as [|c s IH]; [discriminate|].
  destruct s as [|c' s].
  - cbn [string_back string_pop_back append]. intro H.
    apply Ascii.eqb_eq in H. now subst.
  - intro H. cbn [string_back] in H. cbn [string_pop_back append].
    f_equal. apply IH, H.
Qed.

(** C9 (amended): the label of a rendered region is the fixed text
    "ActRec from " followed by the pretty-printed bytecode range from the
    push instruction's offset to the offset after it (line numbers off,
    indentation 0, functions off) without its final line terminator, which
    the printer must have produced for the check to return. *)
Theorem region_label_is_prefixed_pretty_print (w w' : walk) :
  checkFpi kNumActRecCells irgs w = Done true w' ->
  exists e body,
    fpi w = Some e /\
    prettyPrint (curUnit irgs)
      {| startOffset := m_fpushOff e;
         stopOffset := m_fpushOff e + instrLenAt (curUnit irgs) (m_fpushOff e);
         showLines := false; indentSize := 0; showFuncs := false |}
    = (body ++ String newline EmptyString)%string /\
    fpiLabel irgs e = ("ActRec from " ++ body)%string /\
    out w' = out w ++ numbered (stackDepth irgs - spOffset w)
                               (repeat (fpiLabel irgs e) kNumActRecCells).
Proof.
  intro C. pose proof (checkFpi_region _ _ C)
    as (e & He & _ & Hnl & Ho & _).
  set (pp := prettyPrint (curUnit irgs)
               (fpushPrintOpts (m_fpushOff e)
                  (m_fpushOff e + instrLenAt (curUnit irgs) (m_fpushOff e)))).
  assert (fpiMsg irgs e = ("ActRec from " ++ pp)%string) as Hmsg by reflexivity.
  assert (pp <> EmptyString) as Hne.
  { intro E. rewrite Hmsg, E in Hnl. discriminate. }
  exists e, (string_pop_back pp).
  split; [exact He|]. split; [|split; [|exact Ho]].
  - change (pp = (string_pop_back pp ++ String newline EmptyString)%string).
    apply endsWithNewline_split.
    unfold endsWithNewline in *. now rewrite Hmsg, string_back_app in Hnl.
  - unfold fpiLabel. rewrite Hmsg. now apply string_pop_back_app.
Qed.

Lemma headsFrom_add (a b : nat) (i : Z) (w : walk) :
  headsFrom kNumActRecCells irgs (a + b) i w =
  match headsFrom kNumActRecCells irgs a i w with
  | Some (i', w') => headsFrom kNumActRecCells irgs b i' w'
  | None => None
  end.
Proof.
  revert i w; induction a as [|a IH]; intros i w; [reflexivity|].
  cbn [Nat.add headsFrom]. destruct (0 <? spOffset w); [|reflexivity].
  destruct (loopBody kNumActRecCells irgs i w); auto.
Qed.

(** C10 (amended): each iteration of the stack loop first checks
    [i < maxStackCells]: an iteration entered with [i] at or beyond the
    maximum halts on that assertion before the region check and before any
    query of the cell, with nothing written; [show] then halts with it, and
    a snapshot that is returned had [i] below the maximum at the start of
    every iteration. *)
Theorem max_stack_cells_checked_each_iteration :
  (forall i w,
      maxStackCells (curFunc irgs) <= i ->
      loopBody kNumActRecCells irgs i w = AssertFailed AssertMaxStackCells w) /\
  (forall n i w,
      (0 < kNumActRecCells)%nat ->
      headAt kNumActRecCells irgs n = Some (i, w) ->
      0 < spOffset w ->
      maxStackCells (curFunc irgs) <= i ->
      show kNumActRecCells irgs = AssertFailed AssertMaxStackCells w) /\
  (forall ls w n i w1,
      show kNumActRecCells irgs = Done ls w ->
      headAt kNumActRecCells irgs n = Some (i, w1) ->
      0 < spOffset w1 ->
      i < maxStackCells (curFunc irgs)).
Proof.
  assert (forall i w, maxStackCells (curFunc irgs) <= i ->
            loopBody kNumActRecCells irgs i w
            = AssertFailed AssertMaxStackCells w) as Hbody.
  { intros i w H. rewrite loopBody_run. apply Z.ltb_ge in H. now rewrite H. }
  split; [exact Hbody|]. split.
  - intros n i w HW H Hsp Hmax.
    exact (show_halts_at_head n i w w _ HW H Hsp (Hbody _ _ Hmax)).
  - intros ls w n i w1 HS H Hsp.
    destruct (Z.lt_ge_cases i (maxStackCells (curFunc irgs))) as [|Hmax];
      [assumption | exfalso].
    unfold show in HS. rewrite show_fuel_run in HS. unfold headAt in H.
    destruct (0 <=? stackDepth irgs) eqn:E; [|discriminate].
    apply Z.leb_le in E.
    destruct (stackLoop _ _ _ 0 (stackStart irgs)) as [u wf| |] eqn:L;
      try discriminate.
    apply stackLoop_done in L; [|exact E].
    destruct L as (_ & _ & _ & Hs0 & m & Hm).
    pose proof (headsFrom_step _ _ _ _ _ H) as Hnext.
    apply Z.ltb_lt in Hsp. rewrite Hsp, (Hbody _ _ Hmax) in Hnext.
    destruct (Nat.le_gt_cases m n) as [Hle|Hgt].
    + replace n with (m + (n - m))%nat in H by lia.
      rewrite headsFrom_add, Hm in H.
      destruct (n - m)%nat; cbn [headsFrom] in H.
      * injection H as _ <-. apply Z.ltb_lt in Hsp. lia.
      * rewrite Hs0 in H. discriminate.
    + replace m with (S n + (m - S n))%nat in Hm by lia.
      rewrite headsFrom_add, Hnext in Hm. discriminate.
Qed.

End ShowFacts.

(** * Properties of the constructor *)

Section ConstructFacts.

Import Construct.

Variable TransFlags : Type.

(** C2: construction leaves the builder with exactly two instructions
    more than the freshly initialised one and otherwise as it was: first a
    [DefFP] with no inputs, then a [DefSP] carrying the context's initial
    stack-pointer offset with the [DefFP]'s result as its only input (the
    marker synchronisation in between leaves the builder as it was); the
    cursor stack holds the one entry [srcKey] of the context. *)
Theorem constructor_emits_DefFP_then_DefSP (unit : IRUnit TransFlags) :
  let ctx := context unit in
  let fresh := IRBuilder_new unit (initial_marker ctx) in
  let fp := {| tmp_id := 0 |} in
  let defFP := {| i_op := DefFP; i_extra := None; i_srcs := [];
                  i_marker := initial_marker ctx; i_dst := fp |} in
  let defSP := {| i_op := DefSP;
                  i_extra := Some (FPInvOffsetData (initSpOffset ctx));
                  i_srcs := [fp];
                  i_marker := initial_marker ctx;
                  i_dst := {| tmp_id := 1 |} |} in
  irb (updateMarker (IRGS_init unit)) = fresh /\
  irb (IRGS_new unit)
  = {| b_curMarker := b_curMarker fresh;
       b_insts := b_insts fresh ++ [defFP; defSP] |} /\
  List.length (b_insts (irb (IRGS_new unit)))
  = (List.length (b_insts fresh) + 2)%nat /\
  bcStateStack (IRGS_new unit) = [srcKey ctx].
Proof.
  destruct unit as [[tid sp fl sk]]. cbn. repeat split.
Qed.

End ConstructFacts.

(** * Concrete runs *)

Import Examples.

(** C1, as stated, fails on a three-cell stack without regions: the lines
    are numbered 0, 1, 2 from the top, not [stackDepth - o] and not 2, 1, 0. *)
Lemma plain3_not_numbered_from_bottom :
  exists ls w,
    show 3 plain3 = Done ls w /\
    stackDepth plain3 = 3 /\
    stackSection ls = [LElem 0 "Int"; LElem 1 "Dbl"; LElem 2 "Str"] /\
    elemIndices (stackSection ls) <> [2; 1; 0] /\
    ~ (forall (o : nat) n s,
          nth_error (stackSection ls) o = Some (LElem n s) ->
          n = stackDepth plain3 - Z.of_nat o).
Proof.
  eexists _, _. split; [run|]. split; [run|]. split; [run|].
  split; [vm_compute; discriminate|].
  intro H. specialize (H 0%nat 0 "Int"%string eq_refl).
  vm_compute in H. discriminate.
Qed.

(** C3, as stated, fails both ways. In [region3] the check succeeds at the
    top of the stack (offset 0) although 0 plus [frameCells] is not the
    entry's frame offset; in [resumed4] offset 0 plus [frameCells] is the
    entry's frame offset and the check fails. *)
Lemma checkFpi_does_not_test_top_offset :
  (exists w w',
      headAt 3 region3 0 = Some (0, w) /\
      checkFpi 3 region3 w = Done true w' /\
      ~ (exists e, fpi w = Some e /\ 0 + frameCells region3 = m_fpOff e)) /\
  (exists w,
      headAt 3 resumed4 0 = Some (0, w) /\
      (exists e, fpi w = Some e /\ 0 + frameCells resumed4 = m_fpOff e) /\
      checkFpi 3 resumed4 w = Done false w).
Proof.
  split.
  - eexists _, _. split; [run|]. split; [run|].
    intros (e & He & H). vm_compute in He. injection He as <-.
    vm_compute in H. discriminate.
  - eexists. split; [run|]. split; [|run].
    eexists. split; run.
Qed.

(** C7, as stated, fails where a region starts with two cells remaining:
    the third call of [elem] runs with no cell remaining, and when its
    assertion halts [show] the stream already holds that call's line. *)
Lemma region2_underflow_line_is_written :
  exists w0 w',
    headAt 3 region2 0 = Some (0, w0) /\
    show 3 region2 = AssertFailed AssertSpOffset w' /\
    out w' = out w0 ++ [LElem 0 "ActRec from FPushFuncD 1 foo";
                        LElem 1 "ActRec from FPushFuncD 1 foo";
                        LElem 2 "ActRec from FPushFuncD 1 foo"] /\
    (exists w2 w3,
        spOffset w2 = 0 /\
        elem region2 "ActRec from FPushFuncD 1 foo" w2
        = AssertFailed AssertSpOffset w3 /\
        out w3 = out w' /\ out w3 <> out w2).
Proof.
  eexists _, _. split; [run|]. split; [run|]. split; [run|].
  exists {| out := [LHeader " 2 stack element(s): ";
                    LElem 0 "ActRec from FPushFuncD 1 foo";
                    LElem 1 "ActRec from FPushFuncD 1 foo"];
            spOffset := 0; fpi := Some (fpiTop 4) |}.
  eexists. split; [run|]. split; [run|].
  split; [run | vm_compute; discriminate].
Qed.

(** C9, as stated, fails on [region3]: the label is not the pretty-printed
    range without its line terminator, it has "ActRec from " before it. *)
Lemma region3_label_has_prefix :
  exists w',
    checkFpi 3 region3 (stackStart region3) = Done true w' /\
    out w' = out (stackStart region3)
             ++ numbered 0 (repeat "ActRec from FPushFuncD 1 foo"%string 3) /\
    string_pop_back (prettyPrint (curUnit region3) (fpushPrintOpts 10 (10 + 2)))
    = "FPushFuncD 1 foo"%string /\
    "ActRec from FPushFuncD 1 foo"%string
    <> string_pop_back (prettyPrint (curUnit region3) (fpushPrintOpts 10 (10 + 2))).
Proof.
  eexists. split; [run|]. split; [run|].
  split; [run | vm_compute; discriminate].
Qed.

(** C10, as stated, fails on [region3max1]: with a maximum of one stack
    cell the snapshot is returned with the lines of the cells at offsets 1
    and 2, which belong to the region starting at offset 0. *)
Lemma region3max1_renders_beyond_max :
  exists ls w,
    show 3 region3max1 = Done ls w /\
    maxStackCells (curFunc region3max1) = 1 /\
    nth_error (stackSection ls) 1
    = Some (LElem 1 "ActRec from FPushFuncD 1 foo") /\
    nth_error (stackSection ls) 2
    = Some (LElem 2 "ActRec from FPushFuncD 1 foo").
Proof.
  eexists _, _. split; [run|]. split; [run|]. split; run.
Qed.

(** Two nested call set-ups: the inner block of three lines, the cell
    between the two, then the outer block. *)
Example nested8_snapshot :
  exists w,
    show 3 nested8
    = Done [LHeader " 8 stack element(s): ";
            LElem 0 "Int";
            LElem 1 "ActRec from FPushObjMethodD 2 bar";
            LElem 2 "ActRec from FPushObjMethodD 2 bar";
            LElem 3 "ActRec from FPushObjMethodD 2 bar";
            LElem 4 "unknown";
            LElem 5 "ActRec from FPushFuncD 1 foo";
            LElem 6 "ActRec from FPushFuncD 1 foo";
            LElem 7 "ActRec from FPushFuncD 1 foo";
            LHeader ""; LBlank; LHeader " 2 local(s) ";
            LElem 0 "Int"; LElem 1 "BoxedCell (predict inner: Str)";
            LHeader ""] w.
Proof. eexists. run. Qed.

(** ** The theorems at concrete states *)

Lemma stack_lines_numbered_from_top_witness :
  (exists w, headAt 3 plain3 2 = Some (2, w) /\
             stackDepth plain3 - spOffset w = 2) /\
  (exists ls w strs,
      show 3 plain3 = Done ls w /\
      Z.of_nat (List.length strs) = stackDepth plain3 /\
      stackSection ls = numbered 0 strs /\
      elemIndices (stackSection ls) = [0; 1; 2]).
Proof.
  split.
  - eassert (headAt 3 plain3 2 = Some (2, _)) as H by run.
    eexists. split; [exact H|].
    exact (proj1 (stack_lines_numbered_from_top 3 plain3) 2%nat 2 _ H).
  - eassert (show 3 plain3 = Done _ _) as H by run.
    destruct (proj2 (stack_lines_numbered_from_top 3 plain3) _ _ H)
      as (strs & Hl & Hs & Hi & _).
    eexists _, _, strs. split; [exact H|]. split; [exact Hl|].
    split; [exact Hs | exact Hi].
Defined.

Lemma constructor_emits_DefFP_then_DefSP_witness :
  let ctx := {| Construct.transID := 7; Construct.initSpOffset := 4;
                Construct.flags := tt;
                Construct.srcKey := {| Construct.sk_funcId := 1;
                                       Construct.sk_offset := 20;
                                       Construct.sk_resumed := false |} |} in
  let env := Construct.IRGS_new {| Construct.context := ctx |} in
  map Construct.i_op (Construct.b_insts (Construct.irb env))
  = [Construct.DefFP; Construct.DefSP] /\
  List.length (Construct.b_insts (Construct.irb env)) = 2%nat /\
  Construct.bcStateStack env = [Construct.srcKey ctx].
Proof.
  intros ctx env.
  destruct (constructor_emits_DefFP_then_DefSP unit {| Construct.context := ctx |})
    as (_ & Hb & Hl & Hs).
  fold env in Hb, Hl, Hs. rewrite Hb. split; [reflexivity|].
  split; [reflexivity | exact Hs].
Defined.

Lemma checkFpi_tests_remaining_cells_witness :
  exists w w',
    headAt 3 nested8 1 = Some (1, w) /\
    spOffset w = 7 /\
    fpi w = Some fpiInner /\
    (stackDepth nested8 - 1) + frameCells nested8 = m_fpOff fpiInner /\
    fpiStartsHere nested8 w = true /\
    checkFpi 3 nested8 w = Done true w' /\
    fpi w' = Some fpiOuter.
Proof.
  eassert (headAt 3 nested8 1 = Some (1, _)) as H by run.
  pose proof (checkFpi_tests_remaining_cells 3 nested8 1 1 _ H)
    as (Hiff & _ & _ & Hpar & _).
  match type of H with
  | _ = Some (_, ?w) =>
      eassert (checkFpi 3 nested8 w = Done true _) as C by run
  end.
  eexists _, _. split; [exact H|]. split; [run|]. split; [run|].
  split; [run|]. split; [|split; [exact C|]].
  - apply Hiff. exists fpiInner. split; run.
  - destruct (Hpar _ C) as (e & He & Hp & _).
    vm_compute in He. injection He as <-. rewrite Hp. run.
Defined.


(** A stack whose top cell is known to be a [Cell] and predicted an [Int]. *)
Lemma stack_cell_text_cases_witness :
  let env := {| resumed := false;
                curFunc := curFunc plain3;
                curUnit := curUnit plain3;
                bcOff := 20;
                irb := {| syncedSpLevel := 3;
                          stackType := fun _ => bCell;
                          stackValue := fun _ => None;
                          localValue := fun _ => None;
                          localType := fun _ => bInt;
                          predictedLocalType := fun _ => bInt;
                          predictedInnerType := fun _ => 0%N |};
                offsetFromIRSP := fun i => i;
                predictedTypeFromStack := fun _ => bInt |} in
  subtypeOf bInt bCell = true /\
  stackCellText env 0 = "Cell (predict: Int)"%string.
Proof.
  intro env. split; [run|].
  destruct (stack_cell_text_cases 3 env 0 ltac:(run))
    as (base & _ & _ & Hbase & Hneq & _).
  rewrite Hneq by (vm_compute; discriminate).
  rewrite Hbase; [run | vm_compute; discriminate | run].
Defined.

Lemma negative_stack_depth_halts_before_output_witness :
  stackDepth negativeDepth = -1 /\
  show 3 negativeDepth
  = AssertFailed AssertStackDepth {| out := []; spOffset := -1; fpi := None |}.
Proof.
  split; [run|].
  rewrite (proj1 (proj2 (proj2 (proj2
             (negative_stack_depth_halts_before_output 3 negativeDepth)))
             ltac:(run))).
  run.
Defined.

Lemma underflow_halts_after_writing_line_witness :
  elem region2 "x" {| out := []; spOffset := 0; fpi := None |}
  = AssertFailed AssertSpOffset
      {| out := [LElem 2 "x"]; spOffset := 0; fpi := None |} /\
  (exists w',
      checkFpi 3 region2 (stackStart region2) = AssertFailed AssertSpOffset w' /\
      out w' = out (stackStart region2)
               ++ [LElem 0 "ActRec from FPushFuncD 1 foo";
                   LElem 1 "ActRec from FPushFuncD 1 foo";
                   LElem 2 "ActRec from FPushFuncD 1 foo"] /\
      show 3 region2 = AssertFailed AssertSpOffset w') /\
  ((exists a w, show 3 region2 = AssertFailed a w) \/
   (exists strs w,
       show 3 region2
       = Done (LHeader (" " ++ dec (stackDepth region2) ++ " stack element(s): ")
               :: numbered 0 strs ++ afterStack region2) w /\
       Z.of_nat (List.length strs) = stackDepth region2)).
Proof.
  destruct (underflow_halts_after_writing_line 3 region2) as (He & Hc & Hs).
  split; [|split].
  - rewrite (He "x"%string {| out := []; spOffset := 0; fpi := None |})
      by (vm_compute; discriminate).
    run.
  - destruct (Hc (stackStart region2) (fpiTop 4)) as (w' & Hw & Ho & Hshow);
      [run | run | run | split; [vm_compute; discriminate | run] |].
    exists w'. split; [exact Hw|]. split; [rewrite Ho; run|].
    apply (Hshow 0%nat 0); run.
  - apply Hs. apply Nat.lt_0_succ.
Defined.

Lemma local_inner_prediction_suffix_witness :
  subtypeOf (localTy plain3 1) TBoxedCell = true /\
  predictedInnerType (irb plain3) 1 <> TBottom /\
  localText plain3 1 = "BoxedCell (predict inner: Str)"%string /\
  subtypeOf (localTy plain3 0) TBoxedCell = false /\
  localText plain3 0 = "Int"%string /\
  nth_error (afterStack plain3) 4
  = Some (LElem 1 "BoxedCell (predict inner: Str)").
Proof.
  destruct (local_inner_prediction_suffix plain3 1) as (H1 & _ & _ & Hn).
  destruct (local_inner_prediction_suffix plain3 0) as (_ & _ & H0 & _).
  split; [run|]. split; [vm_compute; discriminate|].
  split; [rewrite H1; [run | run | vm_compute; discriminate]|].
  split; [run|]. split; [rewrite H0; run|].
  change 4%nat with (3 + 1)%nat.
  rewrite (Hn (Nat.lt_succ_diag_r 1)). run.
Defined.

Lemma region_label_is_prefixed_pretty_print_witness :
  exists w' body,
    checkFpi 3 region3 (stackStart region3) = Done true w' /\
    prettyPrint (curUnit region3)
      {| startOffset := 10; stopOffset := 12; showLines := false;
         indentSize := 0; showFuncs := false |}
    = (body ++ String newline EmptyString)%string /\
    fpiLabel region3 (fpiTop 5) = ("ActRec from " ++ body)%string.
Proof.
  eassert (checkFpi 3 region3 (stackStart region3) = Done true _) as C by run.
  destruct (region_label_is_prefixed_pretty_print 3 region3 _ _ C)
    as (e & body & He & Hpp & Hl & _).
  vm_compute in He. injection He as <-.
  eexists _, body. split; [exact C|]. split; [exact Hpp | exact Hl].
Defined.

Lemma max_stack_cells_checked_each_iteration_witness :
  loopBody 3 region3max1 1 (stackStart region3max1)
  = AssertFailed AssertMaxStackCells (stackStart region3max1) /\
  (exists w,
      headAt 3 (mkIRGS false 2 1 [] None 5) 1 = Some (1, w) /\
      show 3 (mkIRGS false 2 1 [] None 5)
      = AssertFailed AssertMaxStackCells w) /\
  (exists ls w w1,
      show 3 plain3 = Done ls w /\
      headAt 3 plain3 2 = Some (2, w1) /\
      2 < maxStackCells (curFunc plain3)).
Proof.
  split; [|split].
  - apply (proj1 (max_stack_cells_checked_each_iteration 3 region3max1)).
    vm_compute; discriminate.
  - eassert (headAt 3 (mkIRGS false 2 1 [] None 5) 1 = Some (1, _)) as H by run.
    eexists. split; [exact H|].
    apply (proj1 (proj2 (max_stack_cells_checked_each_iteration 3
                           (mkIRGS false 2 1 [] None 5)))
             1%nat 1 _ (Nat.lt_0_succ 2) H);
      [run | vm_compute; discriminate].
  - eassert (show 3 plain3 = Done _ _) as S3 by run.
    eassert (headAt 3 plain3 2 = Some (2, _)) as H by run.
    eexists _, _, _. split; [exact S3|]. split; [exact H|].
    apply (proj2 (proj2 (max_stack_cells_checked_each_iteration 3 plain3))
             _ _ 2%nat 2 _ S3 H).
    run.
Defined.

(** * Further properties of the renderer *)

Import Chain.

Section MoreShowFacts.

Context {TL : TypeLattice}.
Variable kNumActRecCells : nat.
Variable irgs : IRGS.

(** *** Where a halt comes from *)

Lemma repeat_elem_halt (n : nat) (s : string) (w w' : walk) (a : assertion) :
  0 <= spOffset w ->
  repeatM n (elem irgs s) w = AssertFailed a w' ->
  a = AssertSpOffset /\
  spOffset w < Z.of_nat n /\
  out w' = out w ++ numbered (stackDepth irgs - spOffset w)
                             (repeat s (S (Z.to_nat (spOffset w)))).
Proof.
  intros Hsp H.
  destruct (Z.le_gt_cases (Z.of_nat n) (spOffset w)) as [Hle|Hgt].
  - destruct (repeat_elem_enough irgs n s w Hle) as (w1 & H1). congruence.
  - destruct (repeat_elem_underflow irgs n s w (conj Hsp Hgt))
      as (w1 & H1 & Ho & _).
    rewrite H1 in H. injection H as <- <-. auto.
Qed.

(** An iteration that halts: on the bound of [i] before anything else, or
    in a region that starts here, on the missing line terminator or on the
    cells running out. A plain cell never halts it. *)
Lemma loopBody_halt (i : Z) (w w' : walk) (a : assertion) :
  0 < spOffset w ->
  loopBody kNumActRecCells irgs i w = AssertFailed a w' ->
  (a = AssertMaxStackCells /\ maxStackCells (curFunc irgs) <= i /\ w' = w) \/
  (i < maxStackCells (curFunc irgs) /\
   exists e,
     fpi w = Some e /\ spOffset w + frameCells irgs = m_fpOff e /\
     ((a = AssertTrailingNewline /\
       endsWithNewline (fpiMsg irgs e) = false /\ w' = w) \/
      (a = AssertSpOffset /\
       endsWithNewline (fpiMsg irgs e) = true /\
       spOffset w < Z.of_nat kNumActRecCells /\
       out w' = out w ++ numbered (stackDepth irgs - spOffset w)
                  (repeat (fpiLabel irgs e) (S (Z.to_nat (spOffset w))))))).
Proof.
  intros Hsp H. rewrite loopBody_run in H.
  destruct (i <? maxStackCells (curFunc irgs)) eqn:Hmax.
  - right. apply Z.ltb_lt in Hmax. split; [exact Hmax|].
    rewrite checkFpi_run in H.
    destruct (fpi w) as [e|] eqn:He.
    + destruct (spOffset w + frameCells irgs =? m_fpOff e) eqn:G.
      * apply Z.eqb_eq in G. exists e. split; [reflexivity|]. split; [exact G|].
        destruct (endsWithNewline (fpiMsg irgs e)) eqn:N.
        -- right.
           destruct (repeatM kNumActRecCells (elem irgs (fpiLabel irgs e)) w)
             as [u w1|a1 w1|] eqn:R; try discriminate.
           injection H as <- <-.
           apply repeat_elem_halt in R; [|lia].
           destruct R as (-> & Hlt & Ho). auto.
        -- left. injection H as <- <-. auto.
      * rewrite elem_run in H. apply Z.ltb_lt in Hsp. rewrite Hsp in H.
        discriminate.
    + rewrite elem_run in H. apply Z.ltb_lt in Hsp. rewrite Hsp in H.
      discriminate.
  - left. apply Z.ltb_ge in Hmax. injection H as <- <-. auto.
Qed.

(** A stack loop that halts does so in the iteration at one of its heads. *)
Lemma stackLoop_halt_origin (fuel : nat) (i : Z) (w w' : walk) (a : assertion) :
  stackLoop kNumActRecCells irgs fuel i w = AssertFailed a w' ->
  exists n i1 w1,
    headsFrom kNumActRecCells irgs n i w = Some (i1, w1) /\
    0 < spOffset w1 /\
    loopBody kNumActRecCells irgs i1 w1 = AssertFailed a w'.
Proof.
  revert i w; induction fuel as [|fuel IH]; intros i w H; cbn [stackLoop] in H.
  - destruct (0 <? spOffset w); discriminate.
  - destruct (0 <? spOffset w) eqn:E; [|discriminate].
    unfold bind in H.
    destruct (loopBody kNumActRecCells irgs i w) as [i1 w1|a1 w1|] eqn:B;
      try discriminate.
    + destruct (IH _ _ H) as (n & i2 & w2 & Hh & Hs & Hb).
      exists (S n), i2, w2. cbn [headsFrom]. rewrite E, B. auto.
    + injection H as <- <-. exists 0%nat, i, w. cbn [headsFrom].
      apply Z.ltb_lt in E. auto.
Qed.

(** A halt of [show]: the depth assertion, or an iteration of the loop. *)
Lemma show_halt_cases (a : assertion) (w' : walk) :
  show kNumActRecCells irgs = AssertFailed a w' ->
  (stackDepth irgs < 0 /\ a = AssertStackDepth /\ out w' = []) \/
  (0 <= stackDepth irgs /\ a <> AssertStackDepth /\
   exists n i w,
     headAt kNumActRecCells irgs n = Some (i, w) /\
     0 < spOffset w /\
     loopBody kNumActRecCells irgs i w = AssertFailed a w').
Proof.
  unfold show. rewrite show_fuel_run. unfold headAt.
  destruct (0 <=? stackDepth irgs) eqn:E.
  - apply Z.leb_le in E. intro H. right. split; [exact E|].
    destruct (stackLoop _ _ _ 0 (stackStart irgs)) as [u w|a1 w|] eqn:L;
      try discriminate.
    injection H as <- <-.
    destruct (stackLoop_halt_origin _ _ _ _ _ L) as (n & i & w1 & Hh & Hs & Hb).
    split.
    + destruct (loopBody_halt _ _ _ _ Hs Hb)
        as [(-> & _)|(_ & e & _ & _ & [(-> & _)|(-> & _)])]; discriminate.
    + now exists n, i, w1.
  - apply Z.leb_gt in E. intros [= <- <-]. left. auto.
Qed.

(** X6: [show] halts on the depth assertion exactly when [stackDepth] is
    negative, and then with nothing written; every other halt is the halt
    of an iteration of the stack loop, so the borders, the count lines and
    the locals section never halt it. *)
Theorem show_halt_origin (a : assertion) (w' : walk) :
  show kNumActRecCells irgs = AssertFailed a w' ->
  (stackDepth irgs < 0 /\ a = AssertStackDepth /\ out w' = []) \/
  (0 <= stackDepth irgs /\ a <> AssertStackDepth /\
   exists n i w,
     headAt kNumActRecCells irgs n = Some (i, w) /\
     0 < spOffset w /\
     loopBody kNumActRecCells irgs i w = AssertFailed a w').
Proof. apply show_halt_cases. Qed.

(** X7: [show] halts on [spOffset > 0] only in a region: at a head of the
    loop where the entry under consideration starts and fewer than
    [kNumActRecCells] cells remain. In particular a walk without an entry
    to consider never halts on it. *)
Theorem spOffset_underflow_only_in_region (w' : walk) :
  show kNumActRecCells irgs = AssertFailed AssertSpOffset w' ->
  exists n i w e,
    headAt kNumActRecCells irgs n = Some (i, w) /\
    fpi w = Some e /\
    spOffset w + frameCells irgs = m_fpOff e /\
    0 < spOffset w < Z.of_nat kNumActRecCells.
Proof.
  intro H. apply show_halt_cases in H.
  destruct H as [(_ & H & _)|(_ & _ & n & i & w & Hh & Hs & Hb)];
    [discriminate|].
  destruct (loopBody_halt _ _ _ _ Hs Hb)
    as [(H & _)|(_ & e & He & G & [(H & _)|(_ & _ & Hlt & _)])];
    try discriminate.
  exists n, i, w, e. auto.
Qed.

(** X8: when [stackDepth] does not exceed [maxStackCells], [show] never
    halts on [i < maxStackCells]. *)
Theorem depth_within_max_never_halts_on_max (w' : walk) :
  stackDepth irgs <= maxStackCells (curFunc irgs) ->
  show kNumActRecCells irgs <> AssertFailed AssertMaxStackCells w'.
Proof.
  intros Hmax H. apply show_halt_cases in H.
  destruct H as [(_ & H & _)|(_ & _ & n & i & w & Hh & Hs & Hb)];
    [discriminate|].
  apply headAt_inv in Hh. destruct Hh as (_ & Hi & _).
  destruct (loopBody_halt _ _ _ _ Hs Hb)
    as [(_ & Hge & _)|(_ & e & _ & _ & [(H & _)|(H & _)])];
    [lia | discriminate | discriminate].
Qed.

(** X2: a region whose printed text does not end with a line terminator,
    an empty text among them, halts the check on that assertion before any
    of the region's lines is written, and [show] with it. *)
Theorem missing_newline_halts_before_region (w : walk) (e : FPIEnt) :
  fpi w = Some e ->
  spOffset w + frameCells irgs = m_fpOff e ->
  endsWithNewline (fpiMsg irgs e) = false \/
  prettyPrint (curUnit irgs)
    (fpushPrintOpts (m_fpushOff e)
       (m_fpushOff e + instrLenAt (curUnit irgs) (m_fpushOff e)))
  = EmptyString ->
  checkFpi kNumActRecCells irgs w = AssertFailed AssertTrailingNewline w /\
  (forall n i,
      (0 < kNumActRecCells)%nat ->
      headAt kNumActRecCells irgs n = Some (i, w) ->
      0 < spOffset w ->
      i < maxStackCells (curFunc irgs) ->
      show kNumActRecCells irgs = AssertFailed AssertTrailingNewline w).
Proof.
  intros He G N.
  assert (endsWithNewline (fpiMsg irgs e) = false) as N'.
  { destruct N as [N|N]; [exact N|]. unfold fpiMsg. now rewrite N. }
  assert (checkFpi kNumActRecCells irgs w
          = AssertFailed AssertTrailingNewline w) as C.
  { rewrite checkFpi_run, He. apply Z.eqb_eq in G. now rewrite G, N'. }
  split; [exact C|].
  intros n i HW Hh Hs Hmax.
  apply (show_halts_at_head kNumActRecCells irgs n i w); auto.
  rewrite loopBody_run, C. apply Z.ltb_lt in Hmax. now rewrite Hmax.
Qed.

(** *** A walk with no entry to consider *)

Lemma plain_walk (n : nat) :
  forall (fuel : nat) (i : Z) (w : walk),
    fpi w = None ->
    spOffset w = Z.of_nat n ->
    (n <= fuel)%nat ->
    i + Z.of_nat n <= maxStackCells (curFunc irgs) ->
    exists w',
      stackLoop kNumActRecCells irgs fuel i w = Done tt w' /\
      out w' = out w ++ numbered (stackDepth irgs - spOffset w)
                 (map (fun k => stackCellText irgs (i + Z.of_nat k)) (seq 0 n)).
Proof.
  induction n as [|n IH]; intros fuel i w Hf Hs Hfuel Hmax.
  - exists w. split; [|cbn; now rewrite app_nil_r].
    destruct fuel; cbn [stackLoop]; now rewrite Hs.
  - destruct fuel as [|fuel]; [lia|]. cbn [stackLoop].
    assert (0 < spOffset w) as Hpos by lia.
    apply Z.ltb_lt in Hpos. rewrite Hpos. apply Z.ltb_lt in Hpos.
    unfold bind. rewrite loopBody_run.
    assert ((i <? maxStackCells (curFunc irgs)) = true) as Hi
      by (apply Z.ltb_lt; lia).
    rewrite Hi, checkFpi_no_region by (unfold fpiStartsHere; now rewrite Hf).
    rewrite elem_run. apply Z.ltb_lt in Hpos. rewrite Hpos.
    destruct (IH fuel (i + 1)
                {| out := out w ++ [LElem (stackDepth irgs - spOffset w)
                                          (stackCellText irgs i)];
                   spOffset := spOffset w - 1; fpi := fpi w |})
      as (w' & Hl & Ho); cbn [out spOffset fpi]; try lia; [exact Hf|].
    exists w'. split; [exact Hl|]. rewrite Ho. cbn [out spOffset].
    rewrite <- app_assoc. cbn [seq map numbered app].
    rewrite Z.add_0_r. do 3 f_equal.
    + lia.
    + rewrite <- seq_shift, map_map. apply map_ext. intro k. f_equal. lia.
Qed.

(** X1: with no call set-up active at the current bytecode offset and a
    stack depth between 0 and [maxStackCells], [show] returns, whatever
    [kNumActRecCells] is, and the stack section has one line per cell: the
    line numbered [o] carries the text of the cell at offset [o] from the
    top. *)
Theorem no_region_snapshot :
  findFPI (curFunc irgs) (bcOff irgs) = None ->
  0 <= stackDepth irgs <= maxStackCells (curFunc irgs) ->
  exists w,
    show kNumActRecCells irgs
    = Done (LHeader (" " ++ dec (stackDepth irgs) ++ " stack element(s): ")
            :: numbered 0 (map (stackCellText irgs)
                               (offsets (Z.to_nat (stackDepth irgs))))
            ++ afterStack irgs) w.
Proof.
  intros Hf [H0 Hmax]. unfold show. rewrite show_fuel_run.
  apply Z.leb_le in H0. rewrite H0. apply Z.leb_le in H0.
  destruct (plain_walk (Z.to_nat (stackDepth irgs))
              (Z.to_nat (stackDepth irgs)) 0 (stackStart irgs))
    as (w' & Hl & Ho); cbn [stackStart out spOffset fpi]; try lia;
    [exact Hf|].
  rewrite Hl. eexists. f_equal. rewrite Ho.
  cbn [stackStart out spOffset app]. rewrite Z.sub_diag.
  unfold offsets. now rewrite map_map.
Qed.

(** X3: an empty stack is rendered without entering the loop: [show]
    returns the two borders and the locals section, whatever the declared
    maximum and the FPI table are. *)
Theorem empty_stack_snapshot :
  stackDepth irgs = 0 ->
  exists w,
    show kNumActRecCells irgs
    = Done (LHeader " 0 stack element(s): " :: afterStack irgs) w.
Proof.
  intro H0. unfold show. rewrite show_fuel_run, H0. cbn [Z.leb Z.compare].
  change (Z.to_nat 0) with 0%nat. cbn [stackLoop].
  assert (spOffset (stackStart irgs) = 0) as Hs by (cbn; exact H0).
  rewrite Hs. cbn [Z.ltb Z.compare]. eexists. f_equal.
  cbn [stackStart out app]. now rewrite H0.
Qed.

(** X4: a snapshot that is returned has [stackDepth + numLocals + 5]
    lines, and its last [numLocals + 1] lines are the locals, numbered
    [0 .. numLocals - 1] in order, and the closing border. *)
Theorem snapshot_shape (ls : list line) (w : walk) :
  show kNumActRecCells irgs = Done ls w ->
  List.length ls
  = (Z.to_nat (stackDepth irgs) + numLocals (curFunc irgs) + 5)%nat /\
  skipn (Z.to_nat (stackDepth irgs) + 4) ls
  = map (fun i => LElem (Z.of_nat i) (localText irgs i))
        (seq 0 (numLocals (curFunc irgs)))
    ++ [LHeader ""] /\
  out w = ls.
Proof.
  intro H. unfold show in H.
  pose proof (show_fuel_done _ _ _ _ _ H) as (strs & Hls & Hl).
  assert (List.length strs = Z.to_nat (stackDepth irgs)) as Hn by lia.
  split; [|split].
  - rewrite Hls. cbn [List.length]. unfold afterStack.
    rewrite !length_app, numbered_length, length_map, length_seq.
    cbn [List.length]. lia.
  - rewrite Hls, <- Hn. unfold afterStack.
    replace (List.length strs + 4)%nat
      with (S (List.length (numbered 0 strs) + 3))%nat
      by (rewrite numbered_length; lia).
    cbn [skipn]. rewrite skipn_app, skipn_all2 by lia.
    replace (List.length (numbered 0 strs) + 3
             - List.length (numbered 0 strs))%nat with 3%nat by lia.
    reflexivity.
  - rewrite show_fuel_run in H.
    destruct (0 <=? stackDepth irgs); [|discriminate].
    destruct (stackLoop _ _ _ 0 (stackStart irgs)); try discriminate.
    now injection H as <- <-.
Qed.

(** X5: the text of a local before the inner-type annotation. With a
    known value the value's instruction is shown and the type is the
    value's, the tracked type of the local being ignored; without one the
    tracked type is shown. When the predicted type [p] is a subtype of
    that type [k], " (predict: p)" follows exactly when [p] differs from
    [k]. *)
Theorem local_base_text_cases (i : nat) :
  let v := localValue (irb irgs) i in
  let k := localTy irgs i in
  let p := predictedLocalType (irb irgs) i in
  subtypeOf p k = true ->
  (forall t, v = Some t -> k = tmp_type t) /\
  (v = None -> k = localType (irb irgs) i) /\
  exists base : string,
    (forall t, v = Some t -> base = inst_toString t) /\
    (v = None -> base = ty_toString (localType (irb irgs) i)) /\
    (p <> k ->
     localBaseText irgs i
     = (base ++ " (predict: " ++ ty_toString p ++ ")")%string) /\
    (p = k -> localBaseText irgs i = base).
Proof.
  intros v k p Hsub.
  assert (strictSubtypeOf p k = negb (ty_eqb p k)) as Hstrict.
  { unfold strictSubtypeOf. rewrite Hsub. apply andb_true_r. }
  split; [|split].
  - intros t Hv. unfold k, localTy. fold v. now rewrite Hv.
  - intros Hv. unfold k, localTy. fold v. now rewrite Hv.
  - exists (match v with
            | Some t => inst_toString t
            | None => ty_toString k
            end).
    repeat split.
    + now intros t ->.
    + intros Hv. rewrite Hv. unfold k, localTy. fold v. now rewrite Hv.
    + intro N. unfold localBaseText. fold v k p. rewrite Hstrict.
      destruct (ty_eqb_spec p k); [contradiction | reflexivity].
    + intro E. unfold localBaseText. fold v k p. rewrite Hstrict.
      destruct (ty_eqb_spec p k); [reflexivity | contradiction].
Qed.

(** *** The FPI cursor *)

Lemma fpiAncestor_add (a b : nat) (f : option FPIEnt) :
  fpiAncestor irgs (a + b) f = fpiAncestor irgs b (fpiAncestor irgs a f).
Proof.
  revert f; induction a as [|a IH]; intro f; [reflexivity|].
  cbn [Nat.add fpiAncestor]. destruct f as [e|]; [apply IH|].
  now destruct b.
Qed.

Lemma loopBody_fpi (i i' : Z) (w w' : walk) :
  loopBody kNumActRecCells irgs i w = Done i' w' ->
  (fpi w' = fpi w /\ i' = i + 1) \/
  (fpi w' = fpiAncestor irgs 1 (fpi w) /\
   i' = i + Z.of_nat kNumActRecCells /\ fpiStartsHere irgs w = true).
Proof.
  intro B. rewrite loopBody_run in B. destruct (i <? _); [|discriminate].
  destruct (checkFpi kNumActRecCells irgs w) as [[|] w1| |] eqn:C;
    try discriminate.
  - injection B as <- <-. right.
    pose proof (checkFpi_returns_guard _ _ _ _ _ C) as G.
    apply checkFpi_region in C.
    destruct C as (e & He & _ & _ & _ & _ & Hp & _).
    rewrite He, Hp. cbn. auto.
  - pose proof (checkFpi_returns_guard _ _ _ _ _ C) as G. symmetry in G.
    rewrite (checkFpi_no_region _ _ _ G) in C. injection C as <-.
    rewrite elem_run in B. destruct (0 <? spOffset w); [|discriminate].
    injection B as <- <-. left. auto.
Qed.

Lemma headsFrom_chain (n : nat) (i i' : Z) (w w' : walk) :
  headsFrom kNumActRecCells irgs n i w = Some (i', w') ->
  exists k,
    (k <= n)%nat /\
    fpi w' = fpiAncestor irgs k (fpi w) /\
    i' = i + Z.of_nat (n - k) + Z.of_nat k * Z.of_nat kNumActRecCells.
Proof.
  revert i w; induction n as [|n IH]; intros i w H.
  - injection H as <- <-. exists 0%nat. cbn. split; [lia|]. split; [reflexivity|lia].
  - cbn [headsFrom] in H. destruct (0 <? spOffset w); [|discriminate].
    destruct (loopBody kNumActRecCells irgs i w) as [i1 w1| |] eqn:B;
      try discriminate.
    destruct (IH _ _ H) as (k & Hk & Hf & Hi).
    destruct (loopBody_fpi _ _ _ _ B) as [(Hf1 & Hi1)|(Hf1 & Hi1 & _)].
    + exists k. split; [lia|]. rewrite Hf, Hf1. split; [reflexivity|].
      replace (S n - k)%nat with (S (n - k)) by lia. lia.
    + exists (S k). split; [lia|]. rewrite Hf, Hf1.
      split; [now rewrite <- fpiAncestor_add|].
      replace (S n - S k)%nat with (n - k)%nat by lia. lia.
Qed.

(** X9: the entry the walk considers is always on the parent chain of the
    one found at the current bytecode offset: after [n] iterations, [k] of
    which rendered a region, it is the [k]-th ancestor of that entry, and
    [i] has advanced by one per plain cell and [kNumActRecCells] per
    region. No other entry of the FPI table is ever looked at. *)
Theorem fpi_cursor_on_parent_chain (n : nat) (i : Z) (w : walk) :
  headAt kNumActRecCells irgs n = Some (i, w) ->
  exists k,
    (k <= n)%nat /\
    fpi w = fpiAncestor irgs k (findFPI (curFunc irgs) (bcOff irgs)) /\
    i = Z.of_nat (n - k) + Z.of_nat k * Z.of_nat kNumActRecCells.
Proof.
  unfold headAt. destruct (0 <=? stackDepth irgs); [|discriminate].
  intro H. apply headsFrom_chain in H. exact H.
Qed.

(** X10: with a positive [kNumActRecCells] the stack loop ends within
    [stackDepth] iterations: each iteration that returns advances [i] by
    at least one, [i] never exceeds [stackDepth] and [spOffset] never goes
    below 0 at a head, so the bound on the iterations is never reached and
    a larger one gives the same result. *)
Theorem stack_loop_terminates :
  (0 < kNumActRecCells)%nat ->
  (forall n i w,
      headAt kNumActRecCells irgs n = Some (i, w) ->
      Z.of_nat n <= i <= stackDepth irgs /\
      0 <= spOffset w /\ i + spOffset w = stackDepth irgs) /\
  show kNumActRecCells irgs <> OutOfFuel /\
  (forall k, show_fuel kNumActRecCells irgs (Z.to_nat (stackDepth irgs) + k)
             = show kNumActRecCells irgs).
Proof.
  intro HW. split; [|split].
  - intros n i w H. pose proof (headAt_inv _ _ _ _ _ H) as (Hs & Hi & _).
    unfold headAt in H. destruct (0 <=? stackDepth irgs); [|discriminate].
    apply headsFrom_chain in H. destruct H as (k & Hk & _ & Hik).
    split; [|auto]. split; [|lia]. rewrite Hik. nia.
  - now apply show_not_OutOfFuel.
  - intro k. now apply show_fuel_enough.
Qed.


End MoreShowFacts.

(** ** The further properties at concrete states *)

Import MoreExamples.

Lemma no_region_snapshot_witness :
  findFPI (curFunc plain3) (bcOff plain3) = None /\
  0 <= stackDepth plain3 <= maxStackCells (curFunc plain3) /\
  exists w,
    show 3 plain3
    = Done (LHeader " 3 stack element(s): "
            :: [LElem 0 "Int"; LElem 1 "Dbl"; LElem 2 "Str"]
            ++ afterStack plain3) w.
Proof.
  assert (0 <= stackDepth plain3 <= maxStackCells (curFunc plain3)) as Hd
    by (split; vm_compute; discriminate).
  split; [run|]. split; [exact Hd|].
  destruct (no_region_snapshot 3 plain3 ltac:(run) Hd) as (w & H).
  exists w. rewrite H. run.
Defined.

Lemma missing_newline_halts_before_region_witness :
  endsWithNewline (fpiMsg region3NoNewline (fpiTop 5)) = false /\
  checkFpi 3 region3NoNewline (stackStart region3NoNewline)
  = AssertFailed AssertTrailingNewline (stackStart region3NoNewline) /\
  show 3 region3NoNewline
  = AssertFailed AssertTrailingNewline (stackStart region3NoNewline).
Proof.
  destruct (missing_newline_halts_before_region 3 region3NoNewline
              (stackStart region3NoNewline) (fpiTop 5)
              ltac:(run) ltac:(run) ltac:(left; run)) as (C & S).
  split; [run|]. split; [exact C|].
  apply (S 0%nat 0 (Nat.lt_0_succ 2)); run.
Defined.

Lemma empty_stack_snapshot_witness :
  stackDepth emptyStack = 0 /\
  maxStackCells (curFunc emptyStack) = 0 /\
  exists w,
    show 3 emptyStack
    = Done (LHeader " 0 stack element(s): " :: afterStack emptyStack) w.
Proof.
  split; [run|]. split; [run|].
  apply (empty_stack_snapshot 3 emptyStack). run.
Defined.

Lemma snapshot_shape_witness :
  exists ls w,
    show 3 nested8 = Done ls w /\
    List.length ls = 15%nat /\
    skipn 12 ls = [LElem 0 "Int"; LElem 1 "BoxedCell (predict inner: Str)";
                   LHeader ""].
Proof.
  eassert (show 3 nested8 = Done _ _) as H by run.
  destruct (snapshot_shape 3 nested8 _ _ H) as (Hl & Hk & _).
  eexists _, _. split; [exact H|]. split.
  - rewrite Hl. run.
  - change 12%nat with (Z.to_nat (stackDepth nested8) + 4)%nat.
    rewrite Hk. run.
Defined.

Lemma local_base_text_cases_witness :
  subtypeOf (predictedLocalType (irb localsB) 0) (localTy localsB 0) = true /\
  localTy localsB 0 = bInt /\
  localType (irb localsB) 0 = bCell /\
  localBaseText localsB 0 = "t1:Int = LdLoc<0> t0:FramePtr"%string /\
  subtypeOf (predictedLocalType (irb localsB) 1) (localTy localsB 1) = true /\
  localBaseText localsB 1 = "Gen (predict: BoxedCell)"%string.
Proof.
  destruct (local_base_text_cases localsB 0 ltac:(run))
    as (Hk0 & _ & base0 & Hb0 & _ & _ & He0).
  destruct (local_base_text_cases localsB 1 ltac:(run))
    as (_ & _ & base1 & _ & Hb1 & Hn1 & _).
  split; [run|]. split; [rewrite (Hk0 _ eq_refl); run|]. split; [run|].
  split; [rewrite He0 by run; rewrite (Hb0 _ eq_refl); run|].
  split; [run|].
  rewrite Hn1 by (vm_compute; discriminate). rewrite Hb1 by run. run.
Defined.

Lemma show_halt_origin_witness :
  (exists w', show 3 negativeDepth = AssertFailed AssertStackDepth w' /\
              stackDepth negativeDepth < 0 /\ out w' = []) /\
  (exists w' n i w,
      show 3 region2 = AssertFailed AssertSpOffset w' /\
      0 <= stackDepth region2 /\
      headAt 3 region2 n = Some (i, w) /\
      loopBody 3 region2 i w = AssertFailed AssertSpOffset w').
Proof.
  split.
  - eassert (show 3 negativeDepth = AssertFailed AssertStackDepth _) as H by run.
    destruct (show_halt_origin 3 negativeDepth _ _ H)
      as [(Hd & _ & Ho)|(Hd & _)].
    + eexists. split; [exact H|]. split; [exact Hd | exact Ho].
    + exfalso. vm_compute in Hd. apply Hd. reflexivity.
  - eassert (show 3 region2 = AssertFailed AssertSpOffset _) as H by run.
    destruct (show_halt_origin 3 region2 _ _ H)
      as [(Hd & _)|(Hd & _ & n & i & w & Hh & _ & Hb)].
    + exfalso. vm_compute in Hd. discriminate.
    + eexists _, n, i, w. split; [exact H|]. split; [exact Hd|].
      split; [exact Hh | exact Hb].
Defined.

Lemma spOffset_underflow_only_in_region_witness :
  exists w' n i w e,
    show 3 region2 = AssertFailed AssertSpOffset w' /\
    headAt 3 region2 n = Some (i, w) /\
    fpi w = Some e /\
    spOffset w + frameCells region2 = m_fpOff e /\
    0 < spOffset w < 3.
Proof.
  eassert (show 3 region2 = AssertFailed AssertSpOffset _) as H by run.
  destruct (spOffset_underflow_only_in_region 3 region2 _ H)
    as (n & i & w & e & Hh & He & Hg & Hs).
  eexists _, n, i, w, e. split; [exact H|]. auto.
Defined.

Lemma depth_within_max_never_halts_on_max_witness :
  stackDepth region2 <= maxStackCells (curFunc region2) /\
  show 3 region2 <> AssertFailed AssertMaxStackCells (stackStart region2).
Proof.
  assert (stackDepth region2 <= maxStackCells (curFunc region2)) as Hd
    by (vm_compute; discriminate).
  split; [exact Hd|].
  exact (depth_within_max_never_halts_on_max 3 region2 _ Hd).
Defined.

Lemma fpi_cursor_on_parent_chain_witness :
  exists w k,
    headAt 3 nested8 3 = Some (5, w) /\
    (k <= 3)%nat /\
    fpi w = fpiAncestor nested8 k (Some fpiInner) /\
    5 = Z.of_nat (3 - k) + Z.of_nat k * 3 /\
    fpiAncestor nested8 1 (Some fpiInner) = Some fpiOuter /\
    fpiAncestor nested8 2 (Some fpiInner) = None.
Proof.
  eassert (headAt 3 nested8 3 = Some (5, _)) as H by run.
  destruct (fpi_cursor_on_parent_chain 3 nested8 _ _ _ H)
    as (k & Hk & Hf & Hi).
  eexists _, k. split; [exact H|]. split; [exact Hk|].
  split; [exact Hf|]. split; [exact Hi|]. split; run.
Defined.

Lemma stack_loop_terminates_witness :
  (exists w, headAt 3 nested8 4 = Some (8, w) /\
             4 <= 8 <= stackDepth nested8 /\ spOffset w = 0) /\
  show 3 nested8 <> OutOfFuel /\
  show_fuel 3 nested8 (Z.to_nat (stackDepth nested8) + 5) = show 3 nested8.
Proof.
  destruct (stack_loop_terminates 3 nested8 (Nat.lt_0_succ 2))
    as (Hh & Hn & Hk).
  split; [|split; [exact Hn | exact (Hk 5%nat)]].
  eassert (headAt 3 nested8 4 = Some (8, _)) as H by run.
  destruct (Hh _ _ _ H) as (Hb & _ & _).
  eexists. split; [exact H|]. split; [exact Hb | run].
Defined.

